(** * sys_socket.c: the TCP client socket of marketmaker-cli

    A shallow embedding of [src/main/sys_socket.c] (POSIX branch of its
    [#ifdef _WIN32]) and the properties of its connect, disconnect, write,
    delimited text read and fixed-length binary read.

    The C code talks to the kernel through [socket], [fcntl], [connect],
    [select], [getsockopt], [recv], [send] and [close].  The kernel is
    modelled as a script of answers consumed one per call, with the calls
    logged; the C functions become state-passing functions over that world.
    The out-parameter [err_t *errp] is an explicit input (the value the cell
    holds on entry) and output (the value it holds on return).

    Descriptors, return values and error codes ([int], [ssize_t]) are in
    [Z]; byte counts and offsets ([size_t]) are in [nat].  The only
    subtraction on a count, [rb->position -= n], never goes below zero
    ([strstr_bound]), and allocation is taken to succeed. *)

From Stdlib Require Import ZArith Lia Strings.Byte.
From stdpp Require Import list.

(** ** Platform constants *)

(** The [<errno.h>] codes the file names.  Their values differ between
    platforms; the code only relies on [ETIMEDOUT] being a real error code. *)
Class Errno := {
  EINPROGRESS : Z;
  EAGAIN : Z;
  ETIMEDOUT : Z;
  ETIMEDOUT_nonzero : ETIMEDOUT ≠ 0%Z
}.

(** Linux ([asm-generic/errno-base.h], [asm-generic/errno.h]). *)
#[export] Instance linux_errno : Errno :=
  {| EINPROGRESS := 115; EAGAIN := 11; ETIMEDOUT := 110;
     ETIMEDOUT_nonzero := ltac:(discriminate) |}.

(** [#define INVALID_SOCKET ((SOCKET) - 1)] (line 34). *)
Definition INVALID_SOCKET : Z := -1.

(** The value [socket_read] stores in [*errp] when [recv] returns 0
    (line 250). *)
Definition PEER_CLOSED : Z := -1.

(** ** The kernel *)

(** [typedef enum { SEL_READ, SEL_WRITE, SEL_ERROR } SelectSet] (line 39). *)
Inductive SelectSet := SEL_READ | SEL_WRITE | SEL_ERROR.

(** The two fields of [URL] that [socket_connect] reads. *)
Record URL := { addr : Z; port : Z }.

(** The system calls of the file, with the arguments that vary. *)
Inductive Call :=
| sys_socket
| sys_fcntl_nonblock (fd : Z)
| sys_connect (fd : Z) (sin_addr sin_port : Z)
| sys_select (nfds : Z) (setId : SelectSet) (fd : Z) (tv_sec tv_usec : Z)
| sys_getsockopt_so_error (fd : Z)
| sys_recv (fd : Z) (nbyte : nat)
| sys_send (fd : Z) (buf : list byte)
| sys_close (fd : Z).

(** What the kernel answers to one call: the return value, the code it
    leaves in [errno] when the call fails, the option value a successful
    [getsockopt] stores through [optval], and the bytes a [recv] has at
    hand. *)
Record Answer := { ret : Z; err : Z; optval : Z; payload : list byte }.

(** The world: the answers still to come, [errno], and the exchanges so far
    (most recent first). *)
Record World := {
  script : list Answer;
  errno : Z;
  trace : list (Call * Answer)
}.

(** The answer to every call made after the script has run out: nothing
    happens ([select] times out, [recv] and [send] transfer nothing). *)
Definition quiet : Answer := {| ret := 0; err := 0; optval := 0; payload := [] |}.

Definition next_answer (w : World) : Answer :=
  match script w with [] => quiet | a :: _ => a end.

(** One system call: take the next answer, log the exchange; a call that
    returns a negative value sets [errno]. *)
Definition syscall (c : Call) (w : World) : Answer * World :=
  let a := next_answer w in
  (a, {| script := tail (script w);
         errno := if (ret a <? 0)%Z then err a else errno w;
         trace := (c, a) :: trace w |}).

(** [recv(fd, buf, nbyte, 0)]: the return value and the bytes stored at the
    front of [buf].  The kernel hands over at most [nbyte] of the bytes at
    hand; with none it returns [ret] (0: the peer has shut down, negative:
    failure). *)
Definition delivered (nbyte : nat) (a : Answer) : list byte :=
  take nbyte (payload a).

Definition recv_rc (nbyte : nat) (a : Answer) : Z :=
  match delivered nbyte a with
  | [] => Z.min (ret a) 0
  | bs => Z.of_nat (length bs)
  end.

Definition recv (fd : Z) (nbyte : nat) (w : World) : Z * list byte * World :=
  let '(a, w') := syscall (sys_recv fd nbyte) w in
  (recv_rc nbyte a, delivered nbyte a, w').

(** [send(fd, buf, len, 0)]: the kernel accepts at most the bytes offered. *)
Definition send_rc (buf : list byte) (a : Answer) : Z :=
  if (ret a <=? 0)%Z then ret a else Z.min (ret a) (Z.of_nat (length buf)).

Definition send (fd : Z) (buf : list byte) (w : World) : Z * World :=
  let '(a, w') := syscall (sys_send fd buf) w in
  (send_rc buf a, w').

(** The exchanges made between two worlds, most recent first. *)
Definition since (w w' : World) : list (Call * Answer) :=
  take (length (trace w') - length (trace w)) (trace w').

(** The bytes a log's [recv] calls stored, in order of arrival. *)
Fixpoint received (log : list (Call * Answer)) : list byte :=
  match log with
  | [] => []
  | (sys_recv _ nbyte, a) :: log' => received log' ++ delivered nbyte a
  | _ :: log' => received log'
  end.

(** The bytes a log's [send] calls put on the wire, in order. *)
Fixpoint sent (log : list (Call * Answer)) : list byte :=
  match log with
  | [] => []
  | (sys_send _ buf, a) :: log' => sent log' ++ take (Z.to_nat (send_rc buf a)) buf
  | _ :: log' => sent log'
  end.

(** The POSIX contract of each call, as far as the file depends on it: a
    failing call returns -1 and sets [errno] to a non-zero code; [fcntl] and
    [connect] return 0 otherwise; [select] on one descriptor returns at most
    1; [getsockopt(SO_ERROR)] on a socket does not fail. *)
Definition posix (x : Call * Answer) : bool :=
  let '(c, a) := x in
  (if (ret a <? 0)%Z then (ret a =? -1)%Z && negb (err a =? 0)%Z else true) &&
  match c with
  | sys_fcntl_nonblock _ | sys_connect _ _ _ => (ret a <=? 0)%Z
  | sys_select _ _ _ _ _ => (ret a <=? 1)%Z
  | sys_getsockopt_so_error _ => (ret a =? 0)%Z
  | _ => true
  end.

(** ** Descriptors, as the kernel keeps them *)

(** The connection behind a descriptor: none, one that a non-blocking
    [connect] has started, one that [select] has reported writable since,
    and an established one. *)
Inductive Conn := Idle | Pending | Writable | Established.

Record Descriptor := { nonblock : bool; conn : Conn }.

Section Kernel.
Context `{Errno}.

(** The effect of one exchange on descriptor [fd] ([None]: not open).
    [socket] opens the descriptor it returns and [close] releases it;
    [fcntl] answering 0 makes it non-blocking; [connect] answering 0
    establishes the connection, and answering [EINPROGRESS] or [EAGAIN] (the
    two codes line 67 takes as "in progress") leaves it pending; a pending
    connection that [select] reports writable is established if [SO_ERROR]
    is then read as 0, and has failed if it is read as an error. *)
Definition kernel_step (fd : Z) (x : Call * Answer) (d : option Descriptor)
  : option Descriptor :=
  let '(c, a) := x in
  match c, d with
  | sys_socket, _ =>
      if (0 <=? ret a)%Z && (ret a =? fd)%Z
      then Some {| nonblock := false; conn := Idle |} else d
  | sys_close fd', _ => if (fd' =? fd)%Z then None else d
  | sys_fcntl_nonblock fd', Some d =>
      if (fd' =? fd)%Z && (ret a =? 0)%Z
      then Some {| nonblock := true; conn := conn d |} else Some d
  | sys_connect fd' _ _, Some d =>
      if (fd' =? fd)%Z then
        if (ret a =? 0)%Z then Some {| nonblock := nonblock d; conn := Established |}
        else if (ret a <? 0)%Z && ((err a =? EINPROGRESS)%Z || (err a =? EAGAIN)%Z)
        then Some {| nonblock := nonblock d; conn := Pending |}
        else Some d
      else Some d
  | sys_select _ SEL_WRITE fd' _ _, Some d =>
      match conn d with
      | Pending =>
          if (fd' =? fd)%Z && (ret a =? 1)%Z
          then Some {| nonblock := nonblock d; conn := Writable |} else Some d
      | _ => Some d
      end
  | sys_getsockopt_so_error fd', Some d =>
      match conn d with
      | Writable =>
          if (fd' =? fd)%Z && (ret a =? 0)%Z
          then Some {| nonblock := nonblock d;
                       conn := if (optval a =? 0)%Z then Established else Idle |}
          else Some d
      | _ => Some d
      end
  | _, _ => d
  end.

(** Descriptor [fd] after the exchanges of a log (most recent first),
    starting with it not open. *)
Definition descriptor (fd : Z) (log : list (Call * Answer)) : option Descriptor :=
  foldr (kernel_step fd) None log.

End Kernel.

(** ** C strings *)

(** The bytes of the C string that starts a memory region: those before the
    first NUL. *)
Fixpoint cstr (m : list byte) : list byte :=
  match m with
  | [] => []
  | b :: m' => if Byte.eqb b x00 then [] else b :: cstr m'
  end.

Definition strlen (m : list byte) : nat := length (cstr m).

Fixpoint starts_with (needle hay : list byte) : bool :=
  match needle, hay with
  | [], _ => true
  | _ :: _, [] => false
  | x :: needle', y :: hay' => Byte.eqb x y && starts_with needle' hay'
  end.

(** The offset of the first occurrence of [needle] in [hay]. *)
Fixpoint find (needle hay : list byte) : option nat :=
  if starts_with needle hay then Some 0
  else match hay with
       | [] => None
       | _ :: hay' => S <$> find needle hay'
       end.

(** [strstr(haystack, needle)] as the offset [eos - haystack], [None] for a
    NULL result. *)
Definition strstr (haystack needle : list byte) : option nat :=
  find (cstr needle) (cstr haystack).

(** ** The handle *)

(** [SockReadBuffer]: the count of pending bytes, the array [data] and the
    byte [filler] that follows it (line 120). *)
Record SockReadBuffer := {
  position : nat;
  data : list byte;
  filler : byte
}.

(** [SysSocket], without its table of function pointers. *)
Record SysSocket := {
  sockfd : Z;
  readBuffer : SockReadBuffer
}.

(** The memory [rb->data] points to, as [strstr] scans it. *)
Definition region (rb : SockReadBuffer) : list byte := data rb ++ [filler rb].

(** The pending bytes: [rb->data[0 .. position)]. *)
Definition pending (rb : SockReadBuffer) : list byte := take (position rb) (data rb).

(** [rb->data[rb->position] = '\0'] (line 121): with [position] equal to
    [sizeof(rb->data)] the byte lands in [filler]. *)
Definition store_nul (rb : SockReadBuffer) : SockReadBuffer :=
  if position rb <? length (data rb)
  then {| position := position rb; data := <[position rb := x00]> (data rb); filler := filler rb |}
  else {| position := position rb; data := data rb; filler := x00 |}.

(** Lines 130-132: [position -= n] and the [memmove] of what is left to
    the front. *)
Definition shift_left (rb : SockReadBuffer) (n : nat) : SockReadBuffer :=
  let position' := position rb - n in
  {| position := position';
     data := if 0 <? position'
             then take position' (drop n (data rb)) ++ drop position' (data rb)
             else data rb;
     filler := filler rb |}.

(** [realloc] of the accumulator followed by the [memcpy] of [bytes] at its
    end; a NULL accumulator is allocated. *)
Definition append (acc : option (list byte)) (bytes : list byte) : option (list byte) :=
  Some (default [] acc ++ bytes).

(** ** The functions of the file *)

Section Code.
Context `{Errno}.

(** [socket_get_error] (line 235).  The return value of [getsockopt] is
    not looked at: when the call fails, [*errp] keeps the 0 of line 237. *)
Definition socket_get_error (sockfd : Z) (errp : Z) (w : World) : bool * Z * World :=
  let '(a, w1) := syscall (sys_getsockopt_so_error sockfd) w in
  let errp := if (ret a =? 0)%Z then optval a else 0%Z in
  ((errp =? 0)%Z, errp, w1).

(** [socket_select] (line 193). *)
Definition socket_select (sockfd : Z) (setId : SelectSet) (tmout_ms : Z) (errp : Z) (w : World)
  : bool * Z * World :=
  let tv_sec := (tmout_ms ÷ 1000)%Z in
  let tv_usec := (Z.rem tmout_ms 1000 * 1000)%Z in
  let '(a, w1) := syscall (sys_select (sockfd + 1) setId sockfd tv_sec tv_usec) w in
  if (ret a =? 1)%Z then
    let '(_, errp, w2) := socket_get_error sockfd 0 w1 in
    ((errp =? 0)%Z, errp, w2)
  else if (ret a =? 0)%Z then
    (false, ETIMEDOUT, w1)
  else
    let errp := errno w1 in
    ((errp =? 0)%Z, errp, w1).

(** [socket_set_nonblock] (line 255). *)
Definition socket_set_nonblock (sockfd : Z) (errp : Z) (w : World) : bool * Z * World :=
  let '(a, w1) := syscall (sys_fcntl_nonblock sockfd) w in
  let errp := if (ret a =? 0)%Z then 0%Z else errno w1 in
  ((errp =? 0)%Z, errp, w1).

(** [socket_read] (line 243): the count returned, the buffer it was given
    after the call, [*errp] and the world. *)
Definition socket_read (sock : SysSocket) (buf : list byte) (nbyte : nat) (tmout_ms : Z)
    (errp : Z) (w : World) : nat * list byte * Z * World :=
  let '(ready, errp, w1) := socket_select (sockfd sock) SEL_READ tmout_ms errp w in
  if ready then
    let '(rc, bytes, w2) := recv (sockfd sock) nbyte w1 in
    if (0 <? rc)%Z then (Z.to_nat rc, bytes ++ drop (length bytes) buf, errp, w2)
    else (0, buf, if (rc =? 0)%Z then PEER_CLOSED else errno w2, w2)
  else (0, buf, errp, w1).

(** [socket_connect] (line 53). *)
Definition socket_connect (sock : SysSocket) (url : URL) (tmout_ms : Z) (errp : Z) (w : World)
  : bool * SysSocket * Z * World :=
  let '(a, w1) := syscall sys_socket w in
  let fd := ret a in
  let '(errp, w2) :=
    if (fd =? INVALID_SOCKET)%Z then (errno w1, w1)
    else
      let '(nonblock, errp, w2) := socket_set_nonblock fd 0 w1 in
      if nonblock then
        let '(c, w3) := syscall (sys_connect fd (addr url) (port url)) w2 in
        if (ret c <? 0)%Z then
          if (errno w3 =? EINPROGRESS)%Z || (errno w3 =? EAGAIN)%Z then
            let '(_, errp, w4) := socket_select fd SEL_WRITE tmout_ms errp w3 in
            (errp, w4)
          else (errno w3, w3)
        else (errp, w3)
      else (errp, w2) in
  if negb (errp =? 0)%Z && negb (fd =? INVALID_SOCKET)%Z then
    let '(_, w3) := syscall (sys_close fd) w2 in
    ((errp =? 0)%Z, {| sockfd := INVALID_SOCKET; readBuffer := readBuffer sock |}, errp, w3)
  else
    ((errp =? 0)%Z, {| sockfd := fd; readBuffer := readBuffer sock |}, errp, w2).

(** [socket_disconnect] (line 80). *)
Definition socket_disconnect (sock : SysSocket) (w : World) : SysSocket * World :=
  if negb (sockfd sock =? INVALID_SOCKET)%Z then
    let '(_, w1) := syscall (sys_close (sockfd sock)) w in
    (sock, w1)
  else (sock, w).

(** The [for] loop of [socket_write] (line 94).  Every turn that does not
    return moves [ofs] forward, so [len - ofs] turns are enough; see
    [write_loop_fuel]. *)
Fixpoint write_loop (fuel : nat) (fd : Z) (p : list byte) (len ofs : nat) (errp : Z) (w : World)
  : bool * Z * World :=
  if len <=? ofs then (true, errp, w)
  else match fuel with
       | O => (true, errp, w)
       | S fuel' =>
           let '(n, w1) := send fd (take (len - ofs) (drop ofs p)) w in
           if (n <=? 0)%Z then (false, errno w1, w1)
           else write_loop fuel' fd p len (ofs + Z.to_nat n) errp w1
       end.

(** [socket_write] (line 89). *)
Definition socket_write (sock : SysSocket) (p : list byte) (len : nat) (errp : Z) (w : World)
  : bool * Z * World :=
  write_loop len (sockfd sock) p len 0 0 w.

(** Lines 120-133, the part of the loop body of [socket_read_text] after
    the refill: terminate the pending bytes, look for the terminator, move
    the [n] bytes found to the accumulator [out] ([data] in the source,
    [None] while it is NULL; [dataSize] is its length) and shift the rest
    to the front.  The result carries [eos]. *)
Definition scan (rb : SockReadBuffer) (terminator : list byte) (out : option (list byte))
  : SockReadBuffer * option (list byte) * option nat :=
  let rb := store_nul rb in
  let eos := strstr (region rb) terminator in
  let n := match eos with
           | None => position rb
           | Some ofs => ofs + strlen terminator
           end in
  if 0 <? n then (shift_left rb n, append out (take n (data rb)), eos)
  else (rb, out, eos).

(** The [do ... while (eos == NULL)] loop of [socket_read_text] (line 113),
    on the read buffer, the accumulator and [*errp]. *)
Fixpoint read_text_loop (fuel : nat) (sock : SysSocket) (terminator : list byte) (tmout_ms : Z)
    (rb : SockReadBuffer) (out : option (list byte)) (errp : Z) (w : World)
  : SockReadBuffer * option (list byte) * Z * World :=
  match fuel with
  | O => (rb, out, errp, w)
  | S fuel' =>
      let refill := position rb =? 0 in
      let '(rb, errp, w) :=
        if refill then
          let '(n, buf, errp, w) :=
            socket_read sock (data rb) (length (data rb)) tmout_ms errp w in
          ({| position := n; data := buf; filler := filler rb |}, errp, w)
        else (rb, errp, w) in
      if refill && negb (errp =? 0)%Z then (rb, out, errp, w)
      else
        let '(rb, out, eos) := scan rb terminator out in
        match eos with
        | None => read_text_loop fuel' sock terminator tmout_ms rb out errp w
        | Some _ => (rb, out, errp, w)
        end
  end.

(** [socket_read_text] (line 105): the string returned ([None] for NULL),
    the handle, [*errp] and the world.  A turn of the loop that does not end
    it either uses up the pending bytes or makes a system call, and a call
    made after the script has run out ends the loop; see
    [read_text_loop_fuel]. *)
Definition socket_read_text (sock : SysSocket) (terminator : list byte) (tmout_ms : Z)
    (errp : Z) (w : World) : option (list byte) * SysSocket * Z * World :=
  let '(rb, out, errp, w) :=
    read_text_loop (length (script w) + 2) sock terminator tmout_ms
                   (readBuffer sock) None errp w in
  let out := if (errp =? 0)%Z then out else None in
  (out, {| sockfd := sockfd sock; readBuffer := rb |}, errp, w).

(** The [while (dataSize < expectedSize)] loop of [socket_read_binary]
    (line 155). *)
Fixpoint read_binary_loop (fuel : nat) (sock : SysSocket) (expectedSize : nat) (tmout_ms : Z)
    (rb : SockReadBuffer) (out : option (list byte)) (errp : Z) (w : World)
  : SockReadBuffer * option (list byte) * Z * World :=
  let dataSize := length (default [] out) in
  if expectedSize <=? dataSize then (rb, out, errp, w)
  else match fuel with
       | O => (rb, out, errp, w)
       | S fuel' =>
           let refill := position rb =? 0 in
           let '(rb, errp, w) :=
             if refill then
               let nbytesToRead := length (data rb) `min` (expectedSize - dataSize) in
               let '(n, buf, errp, w) :=
                 socket_read sock (data rb) nbytesToRead tmout_ms errp w in
               ({| position := n; data := buf; filler := filler rb |}, errp, w)
             else (rb, errp, w) in
           if refill && negb (errp =? 0)%Z then (rb, out, errp, w)
           else
             let out := append out (take (position rb) (data rb)) in
             let rb := {| position := 0; data := data rb; filler := filler rb |} in
             read_binary_loop fuel' sock expectedSize tmout_ms rb out errp w
       end.

(** [socket_read_binary] (line 145): the buffer returned ([None] for NULL),
    [*actualSize], the handle, [*errp] and the world.  A turn of the loop
    that does not end it either lengthens the accumulator or makes a system
    call; see [read_binary_loop_fuel]. *)
Definition socket_read_binary (sock : SysSocket) (expectedSize : nat) (tmout_ms : Z)
    (errp : Z) (w : World) : option (list byte) * nat * SysSocket * Z * World :=
  let '(rb, out, errp, w) :=
    read_binary_loop (expectedSize + length (script w) + 1) sock expectedSize tmout_ms
                     (readBuffer sock) None 0 w in
  let out := if (errp =? 0)%Z then out else None in
  let actualSize := match out with Some bytes => length bytes | None => 0 end in
  (out, actualSize, {| sockfd := sockfd sock; readBuffer := rb |}, errp, w).

(** [sys_socket_init] (line 181): the array is left as it was. *)
Definition sys_socket_init (sock : SysSocket) : SysSocket :=
  {| sockfd := INVALID_SOCKET;
     readBuffer := {| position := 0; data := data (readBuffer sock);
                      filler := filler (readBuffer sock) |} |}.

End Code.

(** ** The buffer invariant *)

(** [0 <= position <= capacity - 1], the capacity being [data] and its
    [filler]. *)
Definition in_bounds (rb : SockReadBuffer) : Prop :=
  position rb ≤ length (data rb).

(** Over a call that starts with buffer [rb], receives the bytes of [log],
    returns [out] and ends with buffer [rb']: the bytes pending at the end
    are exactly the bytes on hand (pending at the start, then received)
    that have not been returned. *)
Definition holds_unreturned (rb rb' : SockReadBuffer) (log : list (Call * Answer))
    (out : option (list byte)) : Prop :=
  pending rb ++ received log = default [] out ++ pending rb'.

(** A chunk of text that one [recv] into a [size]-byte buffer delivers
    whole: not empty, no longer than the buffer, without NUL. *)
Definition fits (size : nat) (bs : list byte) : Prop :=
  bs ≠ [] ∧ length bs ≤ size ∧ x00 ∉ bs.

(** [needle] does not occur in [hay]. *)
Definition absent (needle hay : list byte) : Prop :=
  ∀ l1 l2, hay ≠ l1 ++ needle ++ l2.

(** [needle] occurs in [pre ++ needle] at the end only. *)
Definition first_at (needle pre : list byte) : Prop :=
  ∀ l1 l2, pre ++ needle = l1 ++ needle ++ l2 → l2 = [].

(** ** Scripts for the scenarios *)

(** [select] reports the descriptor ready. *)
Definition ready : Answer := {| ret := 1; err := 0; optval := 0; payload := [] |}.
(** [getsockopt(SO_ERROR)] reports no pending error. *)
Definition no_error : Answer := {| ret := 0; err := 0; optval := 0; payload := [] |}.
(** [recv] has [bs] at hand. *)
Definition bytes (bs : list byte) : Answer :=
  {| ret := 0; err := 0; optval := 0; payload := bs |}.
(** A call fails with [errno] set to [e]. *)
Definition fails (e : Z) : Answer := {| ret := -1; err := e; optval := 0; payload := [] |}.
(** A call returns [v]. *)
Definition returns (v : Z) : Answer := {| ret := v; err := 0; optval := 0; payload := [] |}.

(** The answers behind one successful [socket_read] that receives [bs]. *)
Definition chunk (bs : list byte) : list Answer := [ready; no_error; bytes bs].

(** The stream arrives as the given chunks, one per [recv]. *)
Definition chunks (bss : list (list byte)) : list Answer := bss ≫= chunk.

Definition boot (answers : list Answer) : World :=
  {| script := answers; errno := 0; trace := [] |}.

(** A handle after [sys_socket_init] on a zeroed [size]-byte buffer. *)
Definition fresh (size : nat) : SysSocket :=
  {| sockfd := INVALID_SOCKET;
     readBuffer := {| position := 0; data := replicate size x00; filler := x00 |} |}.

Definition with_fd (fd : Z) (sock : SysSocket) : SysSocket :=
  {| sockfd := fd; readBuffer := readBuffer sock |}.

Definition CR : byte := x0d.
Definition LF : byte := x0a.

(** 127.0.0.1:7783. *)
Definition localhost : URL := {| addr := 2130706433; port := 7783 |}.

(** ** Counting and failing answers *)

(** The number of [close] calls in a log. *)
Fixpoint closes (log : list (Call * Answer)) : nat :=
  match log with
  | [] => 0
  | (sys_close _, _) :: log' => S (closes log')
  | _ :: log' => closes log'
  end.

(** The answers behind a [socket_read] that finds the peer gone: readable,
    no pending error, and a [recv] that returns 0. *)
Definition hangup : list Answer := [ready; no_error; returns 0].

(** The answer behind a [socket_read] that times out: [select] returns 0. *)
Definition silence : list Answer := [returns 0].


(** ** The calls of a read *)

(** A call that reads on descriptor [fd] into a buffer of [size] bytes with
    timeout [tmout_ms]: a wait of [tmout_ms] for [fd] to be readable, a look
    at its pending error, or a [recv] on it of no more than [size] bytes. *)
Definition read_call (fd tmout_ms : Z) (size : nat) (x : Call * Answer) : bool :=
  match x.1 with
  | sys_select nfds SEL_READ fd' tv_sec tv_usec =>
      (nfds =? fd + 1)%Z && (fd' =? fd)%Z &&
      (tv_sec =? tmout_ms ÷ 1000)%Z && (tv_usec =? Z.rem tmout_ms 1000 * 1000)%Z
  | sys_getsockopt_so_error fd' => (fd' =? fd)%Z
  | sys_recv fd' nbyte => (fd' =? fd)%Z && (nbyte <=? size)
  | _ => false
  end.

(** ** The error behind an answer *)

(** The error an exchange stands for: the code a failed call leaves in
    [errno]; for a [select] that returns 0, [ETIMEDOUT]; for a
    [getsockopt(SO_ERROR)] that succeeds, the value it reads; 0 otherwise. *)
Definition reported `{Errno} (x : Call * Answer) : Z :=
  let '(c, a) := x in
  if (ret a <? 0)%Z then err a
  else match c with
       | sys_select _ _ _ _ _ => if (ret a =? 0)%Z then ETIMEDOUT else 0%Z
       | sys_getsockopt_so_error _ => optval a
       | _ => 0%Z
       end.

(** ** Handles with bytes pending *)

(** A handle on descriptor 3 with ["A\nB"] pending. *)
Definition line_pending : SysSocket :=
  {| sockfd := 3;
     readBuffer := {| position := 3;
                      data := ["A"; LF; "B"; x00; x00; x00; x00; x00]%byte;
                      filler := x00 |} |}.

(** A handle on descriptor 3 with ["PI"] pending. *)
Definition part_pending : SysSocket :=
  {| sockfd := 3;
     readBuffer := {| position := 2;
                      data := ["P"; "I"; x00; x00; x00; x00; x00; x00]%byte;
                      filler := x00 |} |}.

(** ** Basic facts about the world *)

Lemma since_app (w w' : World) (log : list (Call * Answer)) :
  trace w' = log ++ trace w → since w w' = log.
Proof.
  intros E. unfold since. rewrite E, length_app.
  replace (length log + length (trace w) - length (trace w)) with (length log) by lia.
  apply take_app_length.
Qed.

Lemma syscall_unfold (c : Call) (w : World) :
  syscall c w
  = (next_answer w,
     {| script := tail (script w);
        errno := if (ret (next_answer w) <? 0)%Z then err (next_answer w) else errno w;
        trace := (c, next_answer w) :: trace w |}).
Proof. reflexivity. Qed.

Lemma received_app (l2 l1 : list (Call * Answer)) :
  received (l2 ++ l1) = received l1 ++ received l2.
Proof.
  induction l2 as [|[c a] l2 IH]; simpl.
  - by rewrite app_nil_r.
  - destruct c; rewrite ?IH, ?app_assoc; reflexivity.
Qed.

Lemma sent_app (l2 l1 : list (Call * Answer)) :
  sent (l2 ++ l1) = sent l1 ++ sent l2.
Proof.
  induction l2 as [|[c a] l2 IH]; simpl.
  - by rewrite app_nil_r.
  - destruct c; rewrite ?IH, ?app_assoc; reflexivity.
Qed.

Lemma sock_eta (sock : SysSocket) :
  {| sockfd := sockfd sock; readBuffer := readBuffer sock |} = sock.
Proof. by destruct sock. Qed.

Section Properties.
Context `{Errno}.

(** ** The readiness wait *)

(** What [socket_select] adds to the log, and that its flag is [*errp == 0]. *)
Lemma socket_select_spec (fd : Z) (setId : SelectSet) (tmout_ms errp : Z) (w : World) :
  let '(ok, e, w') := socket_select fd setId tmout_ms errp w in
  ok = (e =? 0)%Z ∧
  (∃ log, trace w' = log ++ trace w ∧ received log = [] ∧ sent log = []) ∧
  (script w = [] → e = ETIMEDOUT) ∧
  length (script w') ≤ length (script w) - 1.
Proof.
  unfold socket_select, socket_get_error, syscall, next_answer; simpl.
  destruct (script w) as [|a rest] eqn:E; simpl.
  - split; [|split; [|split]]; try done.
    + symmetry. apply Z.eqb_neq, ETIMEDOUT_nonzero.
    + by eexists [_].
  - destruct (ret a =? 1)%Z eqn:E1; [|destruct (ret a =? 0)%Z eqn:E0]; simpl.
    + split; [done|]. split; [by eexists [_; _]|]. split; [done|].
      destruct rest; simpl; lia.
    + split; [|split; [by eexists [_]|split; [done|lia]]].
      symmetry. apply Z.eqb_neq, ETIMEDOUT_nonzero.
    + split; [done|]. split; [by eexists [_]|]. split; [done|lia].
Qed.

(** [socket_select] makes no [recv]. *)
Lemma socket_select_no_recv (fd : Z) (setId : SelectSet) (tmout_ms errp : Z) (w : World) :
  let '(ok, e, w') := socket_select fd setId tmout_ms errp w in
  ∀ log fd' nbyte a l, trace w' = log ++ trace w → log ≠ (sys_recv fd' nbyte, a) :: l.
Proof.
  unfold socket_select, socket_get_error, syscall; simpl.
  destruct (ret (next_answer w) =? 1)%Z; [|destruct (ret (next_answer w) =? 0)%Z];
    simpl; intros log fd' nbyte a l T ->; simpl in T; inversion T.
Qed.

(** C8. [socket_select] hands [select] the timeout as [tmout_ms / 1000]
    seconds and [(tmout_ms % 1000) * 1000] microseconds (C division, which
    is the mathematical one for a timeout that is not negative; together
    they are [tmout_ms] milliseconds).  When [select] returns 1 the error
    reported is the pending socket error that [getsockopt(SO_ERROR)] reads,
    0 if there is none (and 0 as well should [getsockopt] itself fail, its
    return value not being looked at); when it returns 0 the error is
    [ETIMEDOUT]; otherwise it is [errno], the code the failed [select] has
    set.  The flag returned is [*errp == 0]. *)
Theorem socket_select_outcome (sockfd : Z) (setId : SelectSet) (tmout_ms errp : Z) (w : World) :
  let '(ok, e, w') := socket_select sockfd setId tmout_ms errp w in
  let tv_sec := (tmout_ms ÷ 1000)%Z in
  let tv_usec := (Z.rem tmout_ms 1000 * 1000)%Z in
  let a := next_answer w in
  let wait := (sys_select (sockfd + 1) setId sockfd tv_sec tv_usec, a) in
  (tv_sec * 1000000 + tv_usec = tmout_ms * 1000)%Z ∧
  ((0 ≤ tmout_ms)%Z →
   tv_sec = (tmout_ms / 1000)%Z ∧ tv_usec = (tmout_ms `mod` 1000 * 1000)%Z ∧
   (0 ≤ tv_usec < 1000000)%Z) ∧
  ok = (e =? 0)%Z ∧
  if (ret a =? 1)%Z then
    ∃ g, since w w' = [(sys_getsockopt_so_error sockfd, g); wait] ∧
         e = if (ret g =? 0)%Z then optval g else 0%Z
  else
    since w w' = [wait] ∧
    if (ret a =? 0)%Z then e = ETIMEDOUT
    else e = errno w' ∧ ((ret a < 0)%Z → e = err a).
Proof.
  pose proof (socket_select_spec sockfd setId tmout_ms errp w) as S.
  unfold socket_select, socket_get_error in *.
  destruct (syscall _ w) as [a w1] eqn:E1.
  assert (a = next_answer w ∧ trace w1 = (sys_select (sockfd + 1) setId sockfd
            (tmout_ms ÷ 1000) (Z.rem tmout_ms 1000 * 1000), a) :: trace w
          ∧ errno w1 = if (ret a <? 0)%Z then err a else errno w) as (-> & T1 & N1).
  { unfold syscall in E1. by inversion E1. }
  assert (tmout_ms ÷ 1000 * 1000000 + Z.rem tmout_ms 1000 * 1000 = tmout_ms * 1000)%Z as Split.
  { pose proof (Z.quot_rem' tmout_ms 1000). lia. }
  assert ((0 ≤ tmout_ms)%Z →
          (tmout_ms ÷ 1000)%Z = (tmout_ms / 1000)%Z ∧
          (Z.rem tmout_ms 1000 * 1000)%Z = (tmout_ms `mod` 1000 * 1000)%Z ∧
          (0 ≤ Z.rem tmout_ms 1000 * 1000 < 1000000)%Z) as Pos.
  { intros Hpos. rewrite Z.quot_div_nonneg, Z.rem_mod_nonneg by lia.
    pose proof (Z.mod_pos_bound tmout_ms 1000). lia. }
  destruct (ret (next_answer w) =? 1)%Z eqn:R1.
  - destruct (syscall _ w1) as [g w2] eqn:E2.
    assert (trace w2 = (sys_getsockopt_so_error sockfd, g) :: trace w1) as T2.
    { unfold syscall in E2. by inversion E2. }
    split; [done|]. split; [done|]. split; [done|].
    exists g. split; [apply since_app; by rewrite T2, T1|done].
  - destruct (ret (next_answer w) =? 0)%Z eqn:R0.
    + split; [done|]. split; [done|]. split; [by destruct S|].
      split; [|done]. apply since_app. by rewrite T1.
    + split; [done|]. split; [done|]. split; [done|].
      split; [apply since_app; by rewrite T1|]. split; [done|].
      intros Hneg. rewrite N1. by apply Z.ltb_lt in Hneg as ->.
Qed.

(** ** The raw read *)

(** What [socket_read] adds to the log and stores in the buffer. *)
Lemma socket_read_spec (sock : SysSocket) (buf : list byte) (nbyte : nat)
    (tmout_ms errp : Z) (w : World) :
  let '(n, buf', e, w') := socket_read sock buf nbyte tmout_ms errp w in
  (∃ log, trace w' = log ++ trace w ∧ received log = take n buf' ∧ sent log = []) ∧
  n ≤ nbyte ∧
  (nbyte ≤ length buf → length buf' = length buf) ∧
  (e ≠ 0%Z → n = 0 ∧ buf' = buf) ∧
  (script w = [] → e ≠ 0%Z) ∧
  length (script w') ≤ length (script w) - 1.
Proof.
  unfold socket_read.
  pose proof (socket_select_spec (sockfd sock) SEL_READ tmout_ms errp w) as S.
  destruct (socket_select _ _ _ _ w) as [[ready e] w1].
  destruct S as (Hok & (log1 & T1 & R1 & S1) & Hempty & Hlen).
  destruct ready.
  - symmetry in Hok. apply Z.eqb_eq in Hok as ->.
    unfold recv, recv_rc, delivered, syscall; simpl.
    set (a := next_answer w1).
    assert (length (tail (script w1)) ≤ length (script w) - 1) as Hlen'.
    { destruct (script w1); simpl in *; lia. }
    assert (script w = [] → False) as Hne.
    { intros E. specialize (Hempty E). by apply ETIMEDOUT_nonzero. }
    destruct (take nbyte (payload a)) as [|b bs] eqn:D.
    + replace (0 <? Z.min (ret a) 0)%Z with false by (symmetry; apply Z.ltb_ge; lia).
      simpl. split; [|split; [lia|split; [done|split; [done|done]]]].
      exists ([(sys_recv (sockfd sock) nbyte, a)] ++ log1). rewrite T1. simpl.
      unfold delivered. rewrite D, R1, S1. by rewrite take_0.
    + assert (length (b :: bs) ≤ nbyte) as Hb.
      { rewrite <- D, length_take. lia. }
      replace (0 <? Z.of_nat (length (b :: bs)))%Z with true
        by (symmetry; apply Z.ltb_lt; simpl; lia).
      rewrite Nat2Z.id.
      split; [|split; [done|split; [|split; [done|done]]]].
      * exists ([(sys_recv (sockfd sock) nbyte, a)] ++ log1). rewrite T1. simpl.
        unfold delivered. rewrite D, R1, S1. simpl.
        split; [done|]. split; [|done].
        f_equal. by rewrite take_app_length.
      * intros Hn. rewrite length_app, length_drop. lia.
  - split; [|split; [lia|split; [done|split; [done|split; [|lia]]]]].
    + exists log1. by rewrite take_0.
    + intros E. specialize (Hempty E) as ->. apply ETIMEDOUT_nonzero.
Qed.

(** C7. [socket_read] waits for readability and makes one [recv].  When
    [recv] returns 0, [*errp] is the peer-closed value -1, whatever [errno]
    holds; when it returns a negative value, [*errp] is [errno], the code
    the failed [recv] has set; when it returns [rc > 0], [rc] is the count
    and [*errp] is 0.  Whenever [*errp] is not 0 the count is 0 and the
    buffer is as it was, and with system calls that honour the POSIX
    contract a count of 0 comes with an [*errp] that is not 0. *)
Theorem socket_read_outcome (sock : SysSocket) (buf : list byte) (nbyte : nat)
    (tmout_ms errp : Z) (w : World) :
  let '(n, buf', e, w') := socket_read sock buf nbyte tmout_ms errp w in
  (e ≠ 0%Z → n = 0 ∧ buf' = buf) ∧
  (∀ fd nb a log, since w w' = (sys_recv fd nb, a) :: log →
     fd = sockfd sock ∧ nb = nbyte ∧
     (recv_rc nbyte a = 0%Z → e = PEER_CLOSED ∧ n = 0) ∧
     ((recv_rc nbyte a < 0)%Z → e = errno w' ∧ e = err a ∧ n = 0) ∧
     ((0 < recv_rc nbyte a)%Z →
        e = 0%Z ∧ Z.of_nat n = recv_rc nbyte a ∧ take n buf' = delivered nbyte a)) ∧
  (forallb posix (since w w') = true → n = 0 → e ≠ 0%Z).
Proof.
  pose proof (socket_read_spec sock buf nbyte tmout_ms errp w) as Spec.
  unfold socket_read in *.
  pose proof (socket_select_spec (sockfd sock) SEL_READ tmout_ms errp w) as S.
  pose proof (socket_select_no_recv (sockfd sock) SEL_READ tmout_ms errp w) as O.
  destruct (socket_select _ _ _ _ w) as [[ready e] w1].
  destruct S as (Hok & (log1 & T1 & _) & _).
  assert (∀ fd nb a log, log1 ≠ (sys_recv fd nb, a) :: log) as Hnorecv.
  { intros fd nb a log. by apply O. }
  destruct ready.
  - symmetry in Hok. apply Z.eqb_eq in Hok as ->.
    unfold recv in *.
    destruct (syscall _ w1) as [a w2] eqn:E2.
    assert (a = next_answer w1 ∧ trace w2 = (sys_recv (sockfd sock) nbyte, a) :: trace w1
            ∧ errno w2 = if (ret a <? 0)%Z then err a else errno w1) as (Ha & T2 & N2).
    { unfold syscall in E2. by inversion E2. }
    assert (since w w2 = (sys_recv (sockfd sock) nbyte, a) :: log1) as Hsince.
    { apply since_app. by rewrite T2, T1. }
    assert ((recv_rc nbyte a < 0)%Z → errno w2 = err a ∧ (ret a < 0)%Z) as Hneg.
    { unfold recv_rc. destruct (delivered nbyte a); [|lia].
      intros Hlt. rewrite N2.
      destruct (ret a <? 0)%Z eqn:L; [split; [done|by apply Z.ltb_lt]|].
      apply Z.ltb_ge in L. lia. }
    destruct (0 <? recv_rc nbyte a)%Z eqn:Rc.
    + apply Z.ltb_lt in Rc. split; [done|]. split.
      * intros fd nb a' log Hs. rewrite Hsince in Hs. inversion Hs; subst fd nb a' log.
        split; [done|]. split; [done|]. split; [lia|]. split; [lia|].
        intros _. split; [done|]. split; [lia|].
        rewrite take_app_le, take_ge.
        -- done.
        -- unfold recv_rc in *. destruct (delivered nbyte a); simpl in *; lia.
        -- unfold recv_rc in *. destruct (delivered nbyte a); simpl in *; lia.
      * intros _ Hn. exfalso. lia.
    + apply Z.ltb_ge in Rc. split; [done|]. split.
      * intros fd nb a' log Hs. rewrite Hsince in Hs. inversion Hs; subst fd nb a' log.
        split; [done|]. split; [done|].
        split; [intros ->; by rewrite Z.eqb_refl|].
        split; [|lia].
        intros Hlt. destruct (Hneg Hlt) as [-> _].
        replace (recv_rc nbyte a =? 0)%Z with false by (symmetry; apply Z.eqb_neq; lia).
        done.
      * rewrite Hsince. intros Hposix _. simpl in Hposix.
        destruct (recv_rc nbyte a =? 0)%Z eqn:E0; [done|].
        apply Z.eqb_neq in E0. destruct Hneg as [-> Hret]; [lia|].
        apply Z.ltb_lt in Hret. rewrite Hret in Hposix.
        apply andb_prop in Hposix as [Hposix _].
        apply andb_prop in Hposix as [Hposix _].
        apply andb_prop in Hposix as [_ Hposix].
        apply negb_true_iff, Z.eqb_neq in Hposix. done.
  - split; [by destruct Spec as (_ & _ & _ & ? & _)|]. split.
    + intros fd nb a log Hs. rewrite (since_app _ _ _ T1) in Hs. by apply Hnorecv in Hs.
    + intros _ _ ->. discriminate Hok.
Qed.


(** ** Connect *)

Lemma syscall_inv (c : Call) (w : World) :
  ∃ a w', syscall c w = (a, w') ∧
          trace w' = (c, a) :: trace w ∧
          ((ret a < 0)%Z ∧ errno w' = err a ∨ (0 ≤ ret a)%Z ∧ errno w' = errno w) ∧
          script w' = tail (script w).
Proof.
  eexists _, _. split; [reflexivity|]. simpl. split; [done|]. split; [|done].
  destruct (ret (next_answer w) <? 0)%Z eqn:E.
  - left. by apply Z.ltb_lt in E.
  - right. by apply Z.ltb_ge in E.
Qed.

Lemma log_cons (x : Call * Answer) (l log t : list (Call * Answer)) :
  l = log ++ t → x :: l = (x :: log) ++ t.
Proof. by intros ->. Qed.

Lemma log_nil (t : list (Call * Answer)) : t = [] ++ t.
Proof. reflexivity. Qed.

Opaque syscall.

(** Unfold the traces the context describes, down to the first world. *)
Ltac unroll_trace :=
  repeat match goal with T : trace _ = _ :: _ |- _ => rewrite T end.

(** Turn the boolean tests in the context into propositions. *)
Ltac to_prop :=
  repeat match goal with
         | H : (_ && _) = true |- _ => apply andb_prop in H as [? ?]
         | H : context [negb false] |- _ => cbn [negb] in H
         | H : context [_ && true] |- _ => rewrite andb_true_r in H
         | H : context [_ && false] |- _ => rewrite andb_false_r in H
         | H : context [if ?b then _ else _] |- _ => destruct b eqn:?
         | H : (_ || _) = true |- _ => apply orb_true_iff in H
         | H : (_ || _) = false |- _ => apply orb_false_elim in H as [? ?]
         | H : (_ =? _)%Z = true ∨ (_ =? _)%Z = true |- _ => rewrite !Z.eqb_eq in H
         | H : negb _ = true |- _ => apply negb_true_iff in H
         | H : negb _ = false |- _ => apply negb_false_iff in H
         | H : (_ =? _)%Z = true |- _ => apply Z.eqb_eq in H
         | H : (_ =? _)%Z = false |- _ => apply Z.eqb_neq in H
         | H : (_ <? _)%Z = true |- _ => apply Z.ltb_lt in H
         | H : (_ <? _)%Z = false |- _ => apply Z.ltb_ge in H
         | H : (_ <=? _)%Z = true |- _ => apply Z.leb_le in H
         | H : (_ <=? _)%Z = false |- _ => apply Z.leb_gt in H
         | H : true = true |- _ => clear H
         end.

(** The contract, call by call, as propositions. *)
Lemma posix_spec (c : Call) (a : Answer) :
  posix (c, a) = true →
  ((ret a < 0)%Z → ret a = (-1)%Z ∧ err a ≠ 0%Z) ∧
  match c with
  | sys_fcntl_nonblock _ | sys_connect _ _ _ => (ret a ≤ 0)%Z
  | sys_select _ _ _ _ _ => (ret a ≤ 1)%Z
  | sys_getsockopt_so_error _ => ret a = 0%Z
  | _ => True
  end.
Proof.
  unfold posix. intros P. apply andb_prop in P as [P1 P2]. split.
  - intros Hneg. apply Z.ltb_lt in Hneg. rewrite Hneg in P1. by to_prop.
  - destruct c; to_prop; done.
Qed.

Lemma descriptor_cons (fd : Z) (x : Call * Answer) (log : list (Call * Answer)) :
  descriptor fd (x :: log) = kernel_step fd x (descriptor fd log).
Proof. reflexivity. Qed.

Lemma kernel_step_closed (fd : Z) (c : Call) (a : Answer) :
  (c = sys_socket → ret a ≠ fd ∨ (ret a < 0)%Z) →
  kernel_step fd (c, a) None = None.
Proof.
  intros Hc. destruct c; simpl; try done.
  - destruct (Hc eq_refl) as [Hne|Hneg].
    + replace (ret a =? fd)%Z with false by (symmetry; by apply Z.eqb_neq).
      by rewrite andb_false_r.
    + replace (0 <=? ret a)%Z with false by (symmetry; apply Z.leb_gt; lia). done.
  - by destruct setId.
  - by destruct (fd0 =? fd)%Z.
Qed.

Lemma kernel_step_close (fd : Z) (a : Answer) (d : option Descriptor) :
  kernel_step fd (sys_close fd, a) d = None.
Proof. simpl. by rewrite Z.eqb_refl. Qed.

Lemma kernel_step_socket (a : Answer) (d : option Descriptor) :
  (0 ≤ ret a)%Z →
  kernel_step (ret a) (sys_socket, a) d = Some {| nonblock := false; conn := Idle |}.
Proof.
  intros Hfd. simpl. rewrite Z.eqb_refl.
  by replace (0 <=? ret a)%Z with true by (symmetry; by apply Z.leb_le).
Qed.

Lemma kernel_step_fcntl (fd : Z) (a : Answer) (d : Descriptor) :
  ret a = 0%Z →
  kernel_step fd (sys_fcntl_nonblock fd, a) (Some d)
  = Some {| nonblock := true; conn := conn d |}.
Proof. intros E. simpl. by rewrite E, Z.eqb_refl. Qed.

Lemma kernel_step_connect (fd x y : Z) (a : Answer) (d : Descriptor) :
  ret a = 0%Z →
  kernel_step fd (sys_connect fd x y, a) (Some d)
  = Some {| nonblock := nonblock d; conn := Established |}.
Proof. intros E. simpl. by rewrite E, Z.eqb_refl. Qed.

Lemma kernel_step_in_progress (fd x y : Z) (a : Answer) (d : Descriptor) :
  (ret a < 0)%Z → err a = EINPROGRESS ∨ err a = EAGAIN →
  kernel_step fd (sys_connect fd x y, a) (Some d)
  = Some {| nonblock := nonblock d; conn := Pending |}.
Proof.
  intros Hneg Herr. simpl. rewrite Z.eqb_refl.
  replace (ret a =? 0)%Z with false by (symmetry; apply Z.eqb_neq; lia).
  replace (ret a <? 0)%Z with true by (symmetry; by apply Z.ltb_lt).
  replace ((err a =? EINPROGRESS)%Z || (err a =? EAGAIN)%Z) with true; [done|].
  symmetry. apply orb_true_iff. destruct Herr as [->| ->]; rewrite Z.eqb_refl; auto.
Qed.

Lemma kernel_step_writable (fd nfds s u : Z) (a : Answer) (d : Descriptor) :
  conn d = Pending → ret a = 1%Z →
  kernel_step fd (sys_select nfds SEL_WRITE fd s u, a) (Some d)
  = Some {| nonblock := nonblock d; conn := Writable |}.
Proof. intros Hd E. simpl. by rewrite Hd, E, Z.eqb_refl. Qed.

Lemma kernel_step_so_error (fd : Z) (a : Answer) (d : Descriptor) :
  conn d = Writable → ret a = 0%Z →
  kernel_step fd (sys_getsockopt_so_error fd, a) (Some d)
  = Some {| nonblock := nonblock d;
            conn := if (optval a =? 0)%Z then Established else Idle |}.
Proof. intros Hd E. simpl. by rewrite Hd, E, Z.eqb_refl. Qed.

(** C5. With system calls that honour the POSIX contract, [socket_connect]
    returns in one of two states.  Either [*errp] is 0, the flag is true
    and the handle holds the descriptor [socket] returned, which is open,
    non-blocking and connected; or [*errp] is not 0, the flag is false, the
    handle holds [INVALID_SOCKET] and no descriptor opened by the call is
    left open (the one allocated has been closed).  The read buffer is not
    touched. *)
Theorem socket_connect_outcome (sock : SysSocket) (url : URL) (tmout_ms errp : Z) (w : World) :
  let '(ok, sock', e, w') := socket_connect sock url tmout_ms errp w in
  forallb posix (since w w') = true →
  readBuffer sock' = readBuffer sock ∧
  ok = (e =? 0)%Z ∧
  ((e = 0%Z ∧ sockfd sock' ≠ INVALID_SOCKET ∧
    descriptor (sockfd sock') (since w w') = Some {| nonblock := true; conn := Established |})
   ∨
   (e ≠ 0%Z ∧ sockfd sock' = INVALID_SOCKET ∧
    ∀ fd, descriptor fd (since w w') = None)).
Proof.
  pose proof ETIMEDOUT_nonzero as Htm.
  unfold socket_connect, socket_set_nonblock, socket_select, socket_get_error, INVALID_SOCKET.
  (* every path through the function: name each system call's answer and
     world, and split on each test *)
  repeat first
    [ match goal with
      | |- context [syscall ?c ?w] =>
          let a := fresh "a" in
          let w' := fresh "w" in
          let T := fresh "T" in
          let N := fresh "N" in
          destruct (syscall_inv c w) as (a & w' & -> & T & N & _)
      end
    | match goal with
      | |- context [if ?b then _ else _] => destruct b eqn:?
      end ];
    cbn beta iota.
  all: to_prop.
  (* the exchanges of the path, and the contract of each *)
  all: match goal with
       | |- forallb posix (since ?w ?w') = true → _ =>
           let L := fresh "L" in
           eassert (since w w' = _) as L
             by (apply since_app; unroll_trace; repeat eapply log_cons; apply log_nil);
           rewrite L in *; clear L
       end.
  all: intros P; cbn [forallb] in P;
       repeat match type of P with
              | (posix _ && _) = true =>
                  let P1 := fresh "P" in
                  apply andb_prop in P as [P1 P];
                  apply posix_spec in P1; cbn beta iota in P1
              end.
  all: split; [done|]; split; [done|].
  all: cbn [sockfd].
  all: try discriminate.
  all: first
    [ (* success: the descriptor is open, non-blocking and connected *)
      left; split; [lia|]; split; [lia|];
      rewrite !descriptor_cons;
      rewrite kernel_step_socket by lia;
      rewrite kernel_step_fcntl by lia;
      first [ rewrite kernel_step_connect by lia; reflexivity
            | rewrite kernel_step_in_progress by lia;
              rewrite kernel_step_writable by (done || lia);
              rewrite kernel_step_so_error by (done || lia);
              match goal with
              | E : optval ?a = 0%Z |- context [(optval ?a =? 0)%Z] => rewrite E
              end;
              reflexivity ]
    | (* failure: [socket] failed, or the log ends with [close] of the
         descriptor it returned *)
      right; split; [lia|]; split; [lia|];
      let fd := fresh "fd" in
      intros fd;
      first [ apply kernel_step_closed; intros _; right; lia
            | rewrite !descriptor_cons;
              change (descriptor fd []) with (@None Descriptor);
              match goal with
              | |- context [sys_close ?fd0] => destruct (Z.eq_dec fd fd0) as [->|?]
              end;
              [ apply kernel_step_close
              | rewrite !kernel_step_closed
                  by (intros ?; first [discriminate | left; congruence]);
                reflexivity ] ]
    | (* a path the contract rules out *)
      exfalso; lia ].
Qed.

(** ** Write *)

Lemma send_spec (fd : Z) (buf : list byte) (w : World) :
  let '(n, w') := send fd buf w in
  ∃ a, n = send_rc buf a ∧ trace w' = (sys_send fd buf, a) :: trace w ∧
       (n ≤ Z.of_nat (length buf))%Z.
Proof.
  unfold send.
  destruct (syscall_inv (sys_send fd buf) w) as (a & w' & -> & T & _).
  exists a. split; [done|]. split; [done|].
  unfold send_rc. destruct (ret a <=? 0)%Z eqn:E; to_prop; lia.
Qed.

(** The loop never runs out of turns: any two budgets of at least
    [len - ofs] give the same result. *)
Lemma write_loop_fuel (fuel1 fuel2 : nat) (fd : Z) (p : list byte) (len ofs : nat)
    (errp : Z) (w : World) :
  len - ofs ≤ fuel1 → len - ofs ≤ fuel2 →
  write_loop fuel1 fd p len ofs errp w = write_loop fuel2 fd p len ofs errp w.
Proof.
  revert fuel2 ofs w.
  induction fuel1 as [|fuel1 IH]; intros fuel2 ofs w H1 H2;
    destruct fuel2 as [|fuel2]; simpl;
    destruct (len <=? ofs) eqn:E; try done;
    try (apply Nat.leb_gt in E; lia).
  pose proof (send_spec fd (take (len - ofs) (drop ofs p)) w) as S.
  destruct (send fd _ w) as [n w1].
  destruct (n <=? 0)%Z eqn:En; [done|]. to_prop.
  apply IH; lia.
Qed.

Lemma snoc_split {A} (l1 l2 rest : list A) (x x0 : A) :
  l1 ++ x :: l2 = rest ++ [x0] →
  (l2 = [] ∧ x = x0 ∧ l1 = rest) ∨ (∃ l2', l2 = l2' ++ [x0] ∧ rest = l1 ++ x :: l2').
Proof.
  destruct l2 as [|y l2' _] using rev_ind; intros E.
  - left. apply app_inj_tail in E as [-> ->]. done.
  - right. exists l2'. rewrite app_comm_cons, app_assoc in E.
    apply app_inj_tail in E as [-> ->]. done.
Qed.

(** The loop from offset [ofs]: what it sends and how it ends. *)
Lemma write_loop_spec (fuel : nat) (fd : Z) (p : list byte) (len ofs : nat)
    (errp : Z) (w : World) :
  ofs ≤ len → len ≤ length p → len - ofs ≤ fuel →
  let '(ok, e, w') := write_loop fuel fd p len ofs errp w in
  ∃ log, trace w' = log ++ trace w ∧
    sent log = take (length (sent log)) (drop ofs (take len p)) ∧
    ofs + length (sent log) ≤ len ∧
    (∀ l1 x l2, log = l1 ++ x :: l2 →
       ∃ a, x = (sys_send fd (drop (ofs + length (sent l2)) (take len p)), a) ∧
            ((ret a ≤ 0)%Z → ok = false ∧ l1 = [])) ∧
    (ok = true → e = errp ∧ ofs + length (sent log) = len) ∧
    (ok = false → e = errno w' ∧ ofs + length (sent log) < len ∧
       ∃ buf a log', log = (sys_send fd buf, a) :: log' ∧ (ret a ≤ 0)%Z).
Proof.
  revert ofs w. induction fuel as [|fuel IH]; intros ofs w Hofs Hlen Hfuel; simpl.
  - replace (len <=? ofs) with true by (symmetry; apply Nat.leb_le; lia).
    exists []. simpl. split; [done|]. split; [done|]. split; [lia|].
    split; [by intros [] ? ? ?|]. split; [intros _; split; [done|lia]|done].
  - destruct (len <=? ofs) eqn:E.
    + apply Nat.leb_le in E.
      exists []. simpl. split; [done|]. split; [done|]. split; [lia|].
      split; [by intros [] ? ? ?|]. split; [intros _; split; [done|lia]|done].
    + apply Nat.leb_gt in E.
      set (buf := take (len - ofs) (drop ofs p)).
      assert (buf = drop ofs (take len p)) as Hbuf by (unfold buf; by rewrite skipn_firstn_comm).
      assert (length buf = len - ofs) as Hbl.
      { unfold buf. rewrite length_take, length_drop. lia. }
      pose proof (send_spec fd buf w) as S.
      destruct (send fd buf w) as [n w1]. destruct S as (a & Hn & T1 & Hle).
      destruct (n <=? 0)%Z eqn:En; to_prop.
      * exists [(sys_send fd buf, a)]. simpl.
        replace (Z.to_nat (send_rc buf a)) with 0 by lia. rewrite take_0. simpl.
        split; [done|]. split; [done|]. split; [lia|]. split.
        { intros l1 x l2 El. destruct l1 as [|y l1]; simpl in El.
          - inversion El; subst x l2. simpl. rewrite Nat.add_0_r, <- Hbuf. by exists a.
          - inversion El as [[E1 E2]]. by destruct l1. }
        split; [done|]. intros _. split; [done|]. split; [lia|].
        exists buf, a, []. split; [done|].
        subst n. unfold send_rc in En. destruct (ret a <=? 0)%Z eqn:?; to_prop; lia.
      * specialize (IH (ofs + Z.to_nat n) w1 ltac:(lia) Hlen ltac:(lia)).
        destruct (write_loop fuel fd p len (ofs + Z.to_nat n) errp w1) as [[ok e] w'].
        destruct IH as (log & T & Hsent & Hbound & Hord & Hok & Hfail).
        assert (sent [(sys_send fd buf, a)] = take (Z.to_nat n) buf) as Hfirst.
        { simpl. by rewrite <- Hn. }
        assert (length (take (Z.to_nat n) buf) = Z.to_nat n) as Hfl.
        { rewrite length_take. lia. }
        exists (log ++ [(sys_send fd buf, a)]).
        rewrite sent_app, Hfirst, length_app, Hfl.
        split; [by rewrite T, T1, <- app_assoc|]. split.
        { rewrite Hsent at 1. rewrite Hbuf.
          rewrite <- (take_take_drop (drop ofs (take len p)) (Z.to_nat n)).
          by rewrite drop_drop. }
        split; [lia|]. split.
        { intros l1 x l2 El. symmetry in El.
          apply snoc_split in El as [(-> & -> & _)|(l2' & -> & ->)].
          - simpl. rewrite Nat.add_0_r, <- Hbuf. exists a. split; [done|].
            intros Hret. exfalso. subst n. unfold send_rc in En.
            destruct (ret a <=? 0)%Z eqn:?; to_prop; lia.
          - destruct (Hord l1 x l2' eq_refl) as (a' & -> & Hlast). exists a'.
            rewrite sent_app, Hfirst, length_app, Hfl.
            split; [do 3 f_equal; lia|done]. }
        split.
        { intros Ht. destruct (Hok Ht) as [-> ?]. split; [done|lia]. }
        intros Hf. destruct (Hfail Hf) as (-> & ? & buf' & a' & log' & -> & ?).
        split; [done|]. split; [lia|]. by exists buf', a', (log' ++ [(sys_send fd buf, a)]).
Qed.

(** C9. [socket_write] on the first [len] bytes of [p].  Every system call
    it makes is a [send] on the handle's descriptor that offers exactly the
    bytes not yet sent, so a partial send moves the offset forward and the
    loop goes on; what has been sent is always a prefix of the [len] bytes.
    A [send] that returns zero or a negative value is the last call made
    and makes the result false, with [*errp] set to [errno]; no other call
    makes it false.  The result is true, with [*errp] 0, if and only if all
    [len] bytes have been sent. *)
Theorem socket_write_outcome (sock : SysSocket) (p : list byte) (len : nat)
    (errp : Z) (w : World) :
  len ≤ length p →
  let '(ok, e, w') := socket_write sock p len errp w in
  let log := since w w' in
  sent log `prefix_of` take len p ∧
  (∀ l1 x l2, log = l1 ++ x :: l2 →
     ∃ a, x = (sys_send (sockfd sock) (drop (length (sent l2)) (take len p)), a) ∧
          ((ret a ≤ 0)%Z → ok = false ∧ l1 = [])) ∧
  (ok = true ↔ sent log = take len p) ∧
  (ok = true → e = 0%Z) ∧
  (ok = false →
     e = errno w' ∧
     ∃ buf a log', log = (sys_send (sockfd sock) buf, a) :: log' ∧ (ret a ≤ 0)%Z).
Proof.
  intros Hlen. unfold socket_write.
  pose proof (write_loop_spec len (sockfd sock) p len 0 0 w ltac:(lia) Hlen ltac:(lia)) as S.
  destruct (write_loop len (sockfd sock) p len 0 0 w) as [[ok e] w'].
  destruct S as (log & T & Hsent & Hbound & Hord & Hok & Hfail).
  rewrite (since_app _ _ _ T). cbn zeta. rewrite drop_0 in Hsent. simpl in *.
  split; [rewrite Hsent; apply prefix_take|].
  split; [done|]. split; [split|].
  - intros Ht. destruct (Hok Ht) as [_ Hall].
    rewrite Hsent, Hall. apply take_ge. rewrite length_take. lia.
  - intros Hall. destruct ok; [done|]. destruct (Hfail eq_refl) as (_ & Hlt & _).
    rewrite Hall, length_take in Hlt. lia.
  - split; [by intros Ht; destruct (Hok Ht)|].
    intros Hf. destruct (Hfail Hf) as (? & _ & ?). done.
Qed.

(** ** Disconnect *)

(** [socket_disconnect] leaves the handle as it found it. *)
Lemma socket_disconnect_handle (sock : SysSocket) (w : World) :
  (socket_disconnect sock w).1 = sock.
Proof.
  unfold socket_disconnect.
  destruct (negb _); [|done]. by destruct (syscall _ w).
Qed.

(** ** Binary read of no bytes *)

(** C10. [socket_read_binary] with an expected size of 0 makes no system
    call, leaves the handle and its read buffer as they are, sets [*errp]
    and [*actualSize] to 0 and returns NULL. *)
Theorem socket_read_binary_zero (sock : SysSocket) (tmout_ms errp : Z) (w : World) :
  socket_read_binary sock 0 tmout_ms errp w = (None, 0, sock, 0%Z, w).
Proof.
  unfold socket_read_binary. rewrite Nat.add_1_r. simpl. by rewrite sock_eta.
Qed.

(** ** The read buffer *)

Lemma byte_eqb_eq (x y : byte) : Byte.eqb x y = true ↔ x = y.
Proof. split; [apply Byte.byte_dec_bl|apply Byte.byte_dec_lb]. Qed.

(** A C string ends at the latest where the region holds a NUL. *)
Lemma cstr_length_nul (m : list byte) (i : nat) :
  m !! i = Some x00 → length (cstr m) ≤ i.
Proof.
  revert i. induction m as [|b m IH]; intros i Hi; [done|]. simpl.
  destruct (Byte.eqb b x00) eqn:E; simpl; [lia|].
  destruct i as [|i]; simpl in Hi.
  - inversion Hi; subst b. by rewrite (proj2 (byte_eqb_eq _ _) eq_refl) in E.
  - specialize (IH i Hi). lia.
Qed.

Lemma starts_with_length (needle hay : list byte) :
  starts_with needle hay = true → length needle ≤ length hay.
Proof.
  revert hay. induction needle as [|x needle IH]; intros [|y hay] Hs; simpl in *;
    try lia; try done.
  apply andb_prop in Hs as [_ Hs]. specialize (IH _ Hs). lia.
Qed.

(** A match lies within the hay. *)
Lemma find_bound (needle hay : list byte) (i : nat) :
  find needle hay = Some i → i + length needle ≤ length hay.
Proof.
  revert i. induction hay as [|y hay IH]; intros i; simpl.
  - destruct (starts_with needle []) eqn:E; [|done].
    intros [= <-]. by apply starts_with_length in E.
  - destruct (starts_with needle (y :: hay)) eqn:E.
    + intros [= <-]. by apply starts_with_length in E.
    + destruct (find needle hay) as [j|]; [|done]. simpl.
      intros [= <-]. specialize (IH j eq_refl). simpl. lia.
Qed.

Lemma store_nul_position (rb : SockReadBuffer) : position (store_nul rb) = position rb.
Proof. unfold store_nul. by destruct (_ <? _). Qed.

Lemma store_nul_length (rb : SockReadBuffer) :
  length (data (store_nul rb)) = length (data rb).
Proof. unfold store_nul. destruct (_ <? _); simpl; [apply length_insert|done]. Qed.

Lemma store_nul_pending (rb : SockReadBuffer) : pending (store_nul rb) = pending rb.
Proof.
  unfold store_nul, pending. destruct (_ <? _) eqn:E; simpl; [|done].
  by rewrite take_insert_ge.
Qed.

(** Line 121 puts a NUL right after the pending bytes. *)
Lemma store_nul_region (rb : SockReadBuffer) :
  position rb ≤ length (data rb) →
  region (store_nul rb) !! position rb = Some x00.
Proof.
  intros Hpos. unfold store_nul, region.
  destruct (position rb <? length (data rb)) eqn:E; simpl.
  - apply Nat.ltb_lt in E. rewrite lookup_app_l by (rewrite length_insert; lia).
    by apply list_lookup_insert_eq.
  - apply Nat.ltb_ge in E. rewrite lookup_app_r by lia.
    by replace (position rb - length (data rb)) with 0 by lia.
Qed.

(** What [strstr] finds ends within the pending bytes. *)
Lemma strstr_bound (rb : SockReadBuffer) (terminator : list byte) (ofs : nat) :
  position rb ≤ length (data rb) →
  strstr (region (store_nul rb)) terminator = Some ofs →
  ofs + strlen terminator ≤ position rb.
Proof.
  intros Hpos Hfind. apply find_bound in Hfind.
  pose proof (cstr_length_nul _ _ (store_nul_region rb Hpos)).
  unfold strlen. lia.
Qed.

Lemma shift_left_length (rb : SockReadBuffer) (n : nat) :
  n ≤ position rb → position rb ≤ length (data rb) →
  length (data (shift_left rb n)) = length (data rb).
Proof.
  intros Hn Hpos. unfold shift_left; simpl.
  destruct (0 <? position rb - n); [|done].
  rewrite length_app, length_take, !length_drop. lia.
Qed.

(** Lines 130-132 leave the pending bytes that were not taken, at the
    front. *)
Lemma shift_left_pending (rb : SockReadBuffer) (n : nat) :
  n ≤ position rb → position rb ≤ length (data rb) →
  pending (shift_left rb n) = drop n (pending rb).
Proof.
  intros Hn Hpos. unfold shift_left, pending; simpl.
  destruct (0 <? position rb - n) eqn:E.
  - rewrite take_app_le by (rewrite length_take, length_drop; lia).
    rewrite take_idemp, skipn_firstn_comm. done.
  - apply Nat.ltb_ge in E. replace (position rb - n) with 0 by lia.
    rewrite take_0. symmetry. apply drop_ge. rewrite length_take. lia.
Qed.

(** Taking [n] pending bytes out of the buffer into the accumulator keeps
    the accumulator followed by the pending bytes the same. *)
Lemma consume_pending (rb : SockReadBuffer) (out : option (list byte)) (n : nat) :
  n ≤ position rb → position rb ≤ length (data rb) →
  default [] (append out (take n (data rb))) ++ pending (shift_left rb n)
  = default [] out ++ pending rb.
Proof.
  intros Hn Hpos. rewrite shift_left_pending by done. simpl.
  rewrite <- app_assoc. f_equal.
  transitivity (take n (pending rb) ++ drop n (pending rb)); [|apply take_drop].
  f_equal. unfold pending. rewrite take_take. f_equal. lia.
Qed.

(** The refill at the head of both read loops: what it receives is what
    is pending afterwards. *)
Lemma refill_spec (sock : SysSocket) (rb : SockReadBuffer) (nbyte : nat)
    (tmout_ms errp : Z) (w : World) :
  position rb = 0 → nbyte ≤ length (data rb) →
  let '(n, buf, e, w') := socket_read sock (data rb) nbyte tmout_ms errp w in
  let rb' := {| position := n; data := buf; filler := filler rb |} in
  length (data rb') = length (data rb) ∧
  position rb' ≤ nbyte ∧
  (e ≠ 0%Z → position rb' = 0) ∧
  (script w = [] → e ≠ 0%Z) ∧
  length (script w') ≤ length (script w) - 1 ∧
  ∃ log, trace w' = log ++ trace w ∧ sent log = [] ∧
         pending rb ++ received log = pending rb'.
Proof.
  intros Hpos Hn.
  pose proof (socket_read_spec sock (data rb) nbyte tmout_ms errp w) as S.
  destruct (socket_read _ _ _ _ _ w) as [[[n buf] e] w'].
  destruct S as ((log & T & R & S) & Hle & Hlen & Herr & Hempty & Hscript).
  cbn zeta. simpl. split; [auto|]. split; [done|]. split; [by intros ?; apply Herr|].
  split; [done|]. split; [done|].
  exists log. split; [done|]. split; [done|].
  unfold pending. rewrite Hpos, take_0. done.
Qed.

Lemma scan_spec (rb : SockReadBuffer) (terminator : list byte) (out : option (list byte)) :
  position rb ≤ length (data rb) →
  let '(rb', out', eos) := scan rb terminator out in
  length (data rb') = length (data rb) ∧
  position rb' ≤ position rb ∧
  default [] out' ++ pending rb' = default [] out ++ pending rb ∧
  (eos = None → position rb' = 0).
Proof.
  intros Hpos. unfold scan.
  pose proof (store_nul_position rb) as Hp.
  pose proof (store_nul_length rb) as Hl.
  pose proof (store_nul_pending rb) as Hq.
  pose proof (strstr_bound rb terminator) as Hb.
  set (rb2 := store_nul rb) in *.
  set (eos := strstr (region rb2) terminator) in *.
  set (n := match eos with None => position rb2 | Some ofs => ofs + strlen terminator end).
  assert (n ≤ position rb2) as Hn.
  { unfold n. destruct eos as [ofs|]; [|lia]. specialize (Hb ofs Hpos eq_refl). lia. }
  destruct (0 <? n) eqn:E.
  - split; [rewrite shift_left_length; lia|].
    split; [simpl; lia|].
    split; [rewrite consume_pending by lia; by rewrite Hq|].
    intros Hnone. unfold n. rewrite Hnone. simpl. lia.
  - apply Nat.ltb_ge in E. split; [done|]. split; [lia|]. split; [by rewrite Hq|].
    intros Hnone. unfold n in E. rewrite Hnone in E. lia.
Qed.

(** The text loop keeps the buffer well formed, and the accumulator
    followed by the pending bytes grows by exactly what is received. *)
Lemma read_text_loop_spec (fuel : nat) (sock : SysSocket) (terminator : list byte)
    (tmout_ms : Z) (rb : SockReadBuffer) (out : option (list byte)) (errp : Z) (w : World) :
  position rb ≤ length (data rb) →
  let '(rb', out', e, w') :=
    read_text_loop fuel sock terminator tmout_ms rb out errp w in
  length (data rb') = length (data rb) ∧
  position rb' ≤ length (data rb') ∧
  ∃ log, trace w' = log ++ trace w ∧ sent log = [] ∧
         default [] out ++ pending rb ++ received log = default [] out' ++ pending rb'.
Proof.
  revert rb out errp w. induction fuel as [|fuel IH]; intros rb out errp w Hpos; simpl.
  { split; [done|]. split; [done|]. exists []. by rewrite app_nil_r. }
  assert (∀ rb1 e1 w1 log1,
    length (data rb1) = length (data rb) → position rb1 ≤ length (data rb1) →
    trace w1 = log1 ++ trace w → sent log1 = [] →
    pending rb ++ received log1 = pending rb1 →
    let '(rb', out', e, w') :=
      (let '(rb2, out2, eos) := scan rb1 terminator out in
       match eos with
       | None => read_text_loop fuel sock terminator tmout_ms rb2 out2 e1 w1
       | Some _ => (rb2, out2, e1, w1)
       end) in
    length (data rb') = length (data rb) ∧
    position rb' ≤ length (data rb') ∧
    ∃ log, trace w' = log ++ trace w ∧ sent log = [] ∧
           default [] out ++ pending rb ++ received log = default [] out' ++ pending rb')
    as Hscan.
  { intros rb1 e1 w1 log1 Hl1 Hp1 T1 S1 R1.
    pose proof (scan_spec rb1 terminator out Hp1) as Sc.
    destruct (scan rb1 terminator out) as [[rb2 out2] eos].
    destruct Sc as (Hl2 & Hp2 & Hacc & _).
    destruct eos as [ofs|].
    - split; [lia|]. split; [lia|]. exists log1.
      split; [done|]. split; [done|]. by rewrite R1, Hacc.
    - specialize (IH rb2 out2 e1 w1 ltac:(lia)).
      destruct (read_text_loop fuel sock terminator tmout_ms rb2 out2 e1 w1)
        as [[[rb' out'] e'] w'].
      destruct IH as (Hl3 & Hp3 & log2 & T2 & S2 & R2).
      split; [lia|]. split; [done|]. exists (log2 ++ log1).
      split; [by rewrite T2, T1, app_assoc|].
      split; [by rewrite sent_app, S1, S2|].
      rewrite received_app, <- R2, (app_assoc (default [] out2)), Hacc, <- R1.
      by rewrite <- !app_assoc. }
  destruct (position rb =? 0) eqn:Ez; simpl.
  - apply Nat.eqb_eq in Ez.
    pose proof (refill_spec sock rb (length (data rb)) tmout_ms errp w Ez ltac:(lia)) as R.
    destruct (socket_read sock (data rb) (length (data rb)) tmout_ms errp w)
      as [[[n buf] e1] w1].
    cbn zeta in R. destruct R as (Hl1 & Hp1 & Hz & _ & _ & log1 & T1 & S1 & R1).
    destruct (negb (e1 =? 0)%Z) eqn:Eerr.
    + split; [done|]. split; [lia|]. exists log1. split; [done|]. split; [done|].
      by rewrite R1.
    + apply (Hscan _ e1 w1 log1); try done. lia.
  - apply (Hscan rb errp w []); try done. by rewrite app_nil_r.
Qed.

Lemma scan_none (rb rb' : SockReadBuffer) (terminator : list byte)
    (out out' : option (list byte)) :
  scan rb terminator out = (rb', out', None) → position rb' = 0.
Proof.
  unfold scan. destruct (strstr _ _) as [ofs|].
  - by destruct (0 <? _).
  - destruct (0 <? position (store_nul rb)) eqn:E; intros [= <- _]; simpl.
    + lia.
    + apply Nat.ltb_ge in E. lia.
Qed.

(** The text loop never runs out of turns: a turn that does not end the
    loop uses up the pending bytes or an answer of the script, and with
    the script empty the refill fails.  Any two budgets that cover this
    give the same result. *)
Lemma read_text_loop_fuel_eq (fuel1 fuel2 : nat) (sock : SysSocket) (terminator : list byte)
    (tmout_ms : Z) (rb : SockReadBuffer) (out : option (list byte)) (errp : Z) (w : World) :
  length (script w) + (if position rb =? 0 then 1 else 2) ≤ fuel1 →
  length (script w) + (if position rb =? 0 then 1 else 2) ≤ fuel2 →
  read_text_loop fuel1 sock terminator tmout_ms rb out errp w
  = read_text_loop fuel2 sock terminator tmout_ms rb out errp w.
Proof.
  revert fuel2 rb out errp w.
  induction fuel1 as [|fuel1 IH]; intros fuel2 rb out errp w H1 H2.
  { destruct (position rb =? 0); lia. }
  destruct fuel2 as [|fuel2]; [destruct (position rb =? 0); lia|].
  simpl. destruct (position rb =? 0) eqn:Ez; simpl.
  - apply Nat.eqb_eq in Ez.
    pose proof (refill_spec sock rb (length (data rb)) tmout_ms errp w Ez ltac:(lia)) as R.
    destruct (socket_read sock (data rb) (length (data rb)) tmout_ms errp w)
      as [[[n buf] e1] w1].
    cbn zeta in R. destruct R as (_ & _ & _ & Hempty & Hscript & _).
    destruct (negb (e1 =? 0)%Z) eqn:Eerr; [done|]. to_prop.
    assert (script w ≠ []) as Hne by (intros E; by apply Hempty).
    assert (0 < length (script w)) by (destruct (script w); [done|simpl; lia]).
    destruct (scan _ terminator out) as [[rb2 out2] [ofs|]] eqn:Sc; [done|].
    apply scan_none in Sc.
    apply IH; rewrite Sc; simpl; lia.
  - destruct (scan rb terminator out) as [[rb2 out2] [ofs|]] eqn:Sc; [done|].
    apply scan_none in Sc.
    apply IH; rewrite Sc; simpl; lia.
Qed.

(** The budget [socket_read_text] gives the loop is enough. *)
Lemma read_text_loop_fuel (fuel : nat) (sock : SysSocket) (terminator : list byte)
    (tmout_ms : Z) (rb : SockReadBuffer) (out : option (list byte)) (errp : Z) (w : World) :
  length (script w) + 2 ≤ fuel →
  read_text_loop fuel sock terminator tmout_ms rb out errp w
  = read_text_loop (length (script w) + 2) sock terminator tmout_ms rb out errp w.
Proof.
  intros Hf. apply read_text_loop_fuel_eq; destruct (position rb =? 0); lia.
Qed.

(** The binary loop keeps the buffer well formed, the accumulator followed
    by the pending bytes grows by exactly what is received, the
    accumulator stays within the expected size if it and the pending
    bytes start within it, and with a budget that covers the bytes missing
    and the answers of the script the loop ends with an error or with the
    expected size reached. *)
Lemma read_binary_loop_spec (fuel : nat) (sock : SysSocket) (expectedSize : nat)
    (tmout_ms : Z) (rb : SockReadBuffer) (out : option (list byte)) (errp : Z) (w : World) :
  position rb ≤ length (data rb) →
  let '(rb', out', e, w') :=
    read_binary_loop fuel sock expectedSize tmout_ms rb out errp w in
  length (data rb') = length (data rb) ∧
  position rb' ≤ length (data rb') ∧
  (∃ log, trace w' = log ++ trace w ∧ sent log = [] ∧
          default [] out ++ pending rb ++ received log = default [] out' ++ pending rb') ∧
  (length (default [] out) + position rb ≤ expectedSize →
   length (default [] out') ≤ expectedSize) ∧
  (expectedSize - length (default [] out) + length (script w) ≤ fuel →
   e = 0%Z → expectedSize ≤ length (default [] out')).
Proof.
  revert rb out errp w. induction fuel as [|fuel IH]; intros rb out errp w Hpos; simpl.
  { destruct (expectedSize <=? length (default [] out)) eqn:E;
      (split; [done|]; split; [done|]; split; [exists []; by rewrite app_nil_r|]);
      (split; [lia|]); [apply Nat.leb_le in E|apply Nat.leb_gt in E]; lia. }
  destruct (expectedSize <=? length (default [] out)) eqn:E.
  { apply Nat.leb_le in E. split; [done|]. split; [done|].
    split; [exists []; by rewrite app_nil_r|]. split; lia. }
  apply Nat.leb_gt in E.
  assert (∀ rb1 e1 w1 log1,
    length (data rb1) = length (data rb) → position rb1 ≤ length (data rb1) →
    trace w1 = log1 ++ trace w → sent log1 = [] →
    pending rb ++ received log1 = pending rb1 →
    (length (default [] out) + position rb ≤ expectedSize →
     length (default [] out) + position rb1 ≤ expectedSize) →
    (expectedSize - length (default [] out) + length (script w) ≤ S fuel →
     expectedSize - (length (default [] out) + position rb1) + length (script w1) ≤ fuel) →
    let '(rb', out', e, w') :=
      read_binary_loop fuel sock expectedSize tmout_ms
        {| position := 0; data := data rb1; filler := filler rb1 |}
        (append out (take (position rb1) (data rb1))) e1 w1 in
    length (data rb') = length (data rb) ∧
    position rb' ≤ length (data rb') ∧
    (∃ log, trace w' = log ++ trace w ∧ sent log = [] ∧
            default [] out ++ pending rb ++ received log
            = default [] out' ++ pending rb') ∧
    (length (default [] out) + position rb ≤ expectedSize →
     length (default [] out') ≤ expectedSize) ∧
    (expectedSize - length (default [] out) + length (script w) ≤ S fuel →
     e = 0%Z → expectedSize ≤ length (default [] out'))) as Hturn.
  { intros rb1 e1 w1 log1 Hl1 Hp1 T1 S1 R1 Hin Hfuel.
    specialize (IH {| position := 0; data := data rb1; filler := filler rb1 |}
                   (append out (take (position rb1) (data rb1))) e1 w1 ltac:(simpl; lia)).
    destruct (read_binary_loop fuel sock expectedSize tmout_ms _ _ e1 w1)
      as [[[rb' out'] e'] w'].
    simpl in IH. rewrite length_app, length_take in IH.
    replace (position rb1 `min` length (data rb1)) with (position rb1) in IH by lia.
    destruct IH as (Hl2 & Hp2 & (log2 & T2 & S2 & R2) & Hin2 & Hfuel2).
    split; [lia|]. split; [done|]. split.
    - exists (log2 ++ log1). split; [by rewrite T2, T1, app_assoc|].
      split; [by rewrite sent_app, S1, S2|].
      rewrite received_app, <- R2.
      rewrite (app_assoc (pending rb)), R1. unfold pending. by rewrite <- !app_assoc.
    - split; [intros; apply Hin2; lia|]. intros; apply Hfuel2; [lia|done]. }
  destruct (position rb =? 0) eqn:Ez; simpl.
  - apply Nat.eqb_eq in Ez.
    set (nbytesToRead := length (data rb) `min` (expectedSize - length (default [] out))).
    pose proof (refill_spec sock rb nbytesToRead tmout_ms errp w Ez ltac:(lia)) as R.
    destruct (socket_read sock (data rb) nbytesToRead tmout_ms errp w)
      as [[[n buf] e1] w1].
    cbn zeta in R. destruct R as (Hl1 & Hp1 & Hz & Hempty & Hscript & log1 & T1 & S1 & R1).
    simpl in Hl1, Hp1, Hz.
    destruct (negb (e1 =? 0)%Z) eqn:Eerr.
    + to_prop. split; [done|]. split; [simpl; lia|]. split.
      * exists log1. split; [done|]. split; [done|]. by rewrite R1.
      * split; [lia|]. intros _ ->. done.
    + to_prop.
      apply (Hturn {| position := n; data := buf; filler := filler rb |} e1 w1 log1);
        try done; simpl; try lia.
      intros Hf. assert (script w ≠ []) as Hne by (intros Es; by apply Hempty).
      assert (0 < length (script w)) by (destruct (script w); [done|simpl; lia]).
      lia.
  - apply Nat.eqb_neq in Ez.
    apply (Hturn rb errp w []); try done; try lia.
    by rewrite app_nil_r.
Qed.

(** The binary loop never runs out of turns. *)
Lemma read_binary_loop_fuel_eq (fuel1 fuel2 : nat) (sock : SysSocket) (expectedSize : nat)
    (tmout_ms : Z) (rb : SockReadBuffer) (out : option (list byte)) (errp : Z) (w : World) :
  position rb ≤ length (data rb) →
  expectedSize - length (default [] out) + length (script w) ≤ fuel1 →
  expectedSize - length (default [] out) + length (script w) ≤ fuel2 →
  read_binary_loop fuel1 sock expectedSize tmout_ms rb out errp w
  = read_binary_loop fuel2 sock expectedSize tmout_ms rb out errp w.
Proof.
  revert fuel2 rb out errp w.
  induction fuel1 as [|fuel1 IH]; intros fuel2 rb out errp w Hpos H1 H2;
    destruct fuel2 as [|fuel2]; simpl;
    destruct (expectedSize <=? length (default [] out)) eqn:E; try done;
    try (apply Nat.leb_gt in E; lia).
  apply Nat.leb_gt in E.
  destruct (position rb =? 0) eqn:Ez; simpl.
  - apply Nat.eqb_eq in Ez.
    set (nbytesToRead := length (data rb) `min` (expectedSize - length (default [] out))).
    pose proof (refill_spec sock rb nbytesToRead tmout_ms errp w Ez ltac:(lia)) as R.
    destruct (socket_read sock (data rb) nbytesToRead tmout_ms errp w)
      as [[[n buf] e1] w1].
    cbn zeta in R. destruct R as (Hl1 & Hp1 & _ & Hempty & Hscript & _).
    simpl in Hl1, Hp1.
    destruct (negb (e1 =? 0)%Z) eqn:Eerr; [done|]. to_prop.
    assert (script w ≠ []) as Hne by (intros Es; by apply Hempty).
    assert (0 < length (script w)) by (destruct (script w); [done|simpl; lia]).
    apply IH; simpl; rewrite ?length_app; lia.
  - apply Nat.eqb_neq in Ez.
    apply IH; simpl; rewrite ?length_app, ?length_take; lia.
Qed.

(** The budget [socket_read_binary] gives the loop is enough. *)
Lemma read_binary_loop_fuel (fuel : nat) (sock : SysSocket) (expectedSize : nat)
    (tmout_ms : Z) (rb : SockReadBuffer) (errp : Z) (w : World) :
  position rb ≤ length (data rb) →
  expectedSize + length (script w) + 1 ≤ fuel →
  read_binary_loop fuel sock expectedSize tmout_ms rb None errp w
  = read_binary_loop (expectedSize + length (script w) + 1)
      sock expectedSize tmout_ms rb None errp w.
Proof.
  intros Hpos Hf. apply read_binary_loop_fuel_eq; simpl; lia.
Qed.

(** C6, amended.  Started on a read buffer with
    [0 <= position <= capacity - 1], [socket_read_text] and
    [socket_read_binary] end, whether they succeed or fail, with a buffer of
    the same size that satisfies [0 <= position <= capacity - 1]; and when
    they report no error ([*errp] is 0), the bytes at [[0, position)] are
    exactly the bytes on hand (those pending before the call, then those
    received during it) that have not been returned to the caller. *)
Theorem read_buffer_invariant (sock : SysSocket) (terminator : list byte)
    (expectedSize : nat) (tmout_ms errp : Z) (w : World) :
  in_bounds (readBuffer sock) →
  (let '(out, sock', e, w') := socket_read_text sock terminator tmout_ms errp w in
   length (data (readBuffer sock')) = length (data (readBuffer sock)) ∧
   in_bounds (readBuffer sock') ∧
   (e = 0%Z → holds_unreturned (readBuffer sock) (readBuffer sock') (since w w') out)) ∧
  (let '(out, actualSize, sock', e, w') :=
     socket_read_binary sock expectedSize tmout_ms errp w in
   length (data (readBuffer sock')) = length (data (readBuffer sock)) ∧
   in_bounds (readBuffer sock') ∧
   (e = 0%Z → holds_unreturned (readBuffer sock) (readBuffer sock') (since w w') out)).
Proof.
  unfold in_bounds, holds_unreturned. intros Hpos. split.
  - unfold socket_read_text.
    pose proof (read_text_loop_spec (length (script w) + 2) sock terminator tmout_ms
                  (readBuffer sock) None errp w Hpos) as S.
    destruct (read_text_loop _ sock terminator tmout_ms (readBuffer sock) None errp w)
      as [[[rb' out'] e] w'].
    destruct S as (Hl & Hp & log & T & _ & R). simpl in *.
    split; [done|]. split; [done|]. intros ->. simpl.
    by rewrite (since_app _ _ _ T).
  - unfold socket_read_binary.
    pose proof (read_binary_loop_spec (expectedSize + length (script w) + 1) sock
                  expectedSize tmout_ms (readBuffer sock) None 0 w Hpos) as S.
    destruct (read_binary_loop _ sock expectedSize tmout_ms (readBuffer sock) None 0 w)
      as [[[rb' out'] e] w'].
    destruct S as (Hl & Hp & (log & T & _ & R) & _). simpl in *.
    split; [done|]. split; [done|]. intros ->. simpl.
    by rewrite (since_app _ _ _ T).
Qed.

(** ** Binary read within the expected size *)

(** When no more bytes are pending than are expected, [socket_read_binary]
    either reports no error and returns exactly [expectedSize] bytes, with
    [*actualSize] equal to it, or reports an error, returns NULL and sets
    [*actualSize] to 0. *)
Lemma socket_read_binary_exact (sock : SysSocket) (expectedSize : nat)
    (tmout_ms errp : Z) (w : World) :
  in_bounds (readBuffer sock) →
  position (readBuffer sock) ≤ expectedSize →
  let '(out, actualSize, sock', e, w') :=
    socket_read_binary sock expectedSize tmout_ms errp w in
  (e = 0%Z → actualSize = expectedSize ∧ length (default [] out) = expectedSize) ∧
  (e ≠ 0%Z → out = None ∧ actualSize = 0).
Proof.
  unfold in_bounds. intros Hpos Hfit. unfold socket_read_binary.
  pose proof (read_binary_loop_spec (expectedSize + length (script w) + 1) sock
                expectedSize tmout_ms (readBuffer sock) None 0 w Hpos) as S.
  destruct (read_binary_loop _ sock expectedSize tmout_ms (readBuffer sock) None 0 w)
    as [[[rb' out'] e] w'].
  destruct S as (_ & _ & _ & Hin & Hfuel). simpl in *.
  specialize (Hin Hfit). split.
  - intros ->. specialize (Hfuel ltac:(lia) eq_refl). simpl.
    destruct out'; simpl in *; lia.
  - intros Hne. apply Z.eqb_neq in Hne. by rewrite Hne.
Qed.

(** ** Text read when no chunk boundary falls inside the terminator *)

Lemma cstr_id (m : list byte) : x00 ∉ m → cstr m = m.
Proof.
  induction m as [|b m IH]; [done|]. intros [Hb Hm]%not_elem_of_cons. simpl.
  destruct (Byte.eqb b x00) eqn:E.
  - apply byte_eqb_eq in E. congruence.
  - by rewrite IH.
Qed.

Lemma cstr_app_nul (m tl : list byte) : x00 ∉ m → cstr (m ++ x00 :: tl) = m.
Proof.
  induction m as [|b m IH]; [done|]. intros [Hb Hm]%not_elem_of_cons. simpl.
  destruct (Byte.eqb b x00) eqn:E.
  - apply byte_eqb_eq in E. congruence.
  - by rewrite IH.
Qed.

Lemma starts_with_prefix (needle hay : list byte) :
  starts_with needle hay = true ↔ ∃ l, hay = needle ++ l.
Proof.
  revert hay. induction needle as [|x needle IH]; intros hay; simpl.
  - split; [intros _; by exists hay|done].
  - destruct hay as [|y hay].
    + split; [done|]. by intros [l ?].
    + rewrite andb_true_iff, byte_eqb_eq, IH. split.
      * intros [-> [l ->]]. by exists l.
      * intros [l [= -> ->]]. split; [done|]. by exists l.
Qed.


(** [find] misses no occurrence. *)
Lemma find_None (needle hay : list byte) :
  (∀ l1 l2, hay ≠ l1 ++ needle ++ l2) → find needle hay = None.
Proof.
  induction hay as [|y hay IH]; intros Hno; simpl.
  - destruct (starts_with needle []) eqn:E; [|done].
    apply starts_with_prefix in E as [l E]. by destruct (Hno [] l).
  - destruct (starts_with needle (y :: hay)) eqn:E.
    + apply starts_with_prefix in E as [l E]. by destruct (Hno [] l).
    + rewrite IH; [done|]. intros l1 l2 ->. by apply (Hno (y :: l1) l2).
Qed.

Lemma find_unfold (needle hay : list byte) :
  find needle hay
  = if starts_with needle hay then Some 0
    else match hay with [] => None | _ :: hay' => S <$> find needle hay' end.
Proof. by destruct hay. Qed.

(** [find] returns the first occurrence. *)
Lemma find_first (needle pre post : list byte) :
  (∀ l1 l2, pre ++ needle = l1 ++ needle ++ l2 → l2 = []) →
  find needle (pre ++ needle ++ post) = Some (length pre).
Proof.
  induction pre as [|y pre IH]; intros Hlast; rewrite find_unfold; simpl.
  - replace (starts_with needle (needle ++ post)) with true; [done|].
    symmetry. apply starts_with_prefix. by exists post.
  - destruct (starts_with needle (y :: pre ++ needle ++ post)) eqn:E.
    + exfalso. apply starts_with_prefix in E as [l E].
      assert (y :: pre ++ needle = needle ++ take (S (length pre)) l) as Hocc.
      { apply (f_equal (take (length needle + S (length pre)))) in E.
        replace (y :: pre ++ needle ++ post) with ((y :: pre ++ needle) ++ post) in E
          by (simpl; by rewrite <- app_assoc).
        rewrite take_app_length' in E by (simpl; rewrite length_app; lia).
        by rewrite take_app_add in E. }
      specialize (Hlast [] _ Hocc).
      apply (f_equal length) in Hocc. rewrite Hlast, app_nil_r in Hocc.
      simpl in Hocc. rewrite length_app in Hocc. lia.
    + rewrite IH; [done|]. intros l1 l2 Hocc. apply (Hlast (y :: l1) l2).
      simpl. by rewrite Hocc.
Qed.

(** After line 121 the region reads: the pending bytes, a NUL, the rest. *)
Lemma store_nul_cstr (rb : SockReadBuffer) :
  in_bounds rb → x00 ∉ pending rb → cstr (region (store_nul rb)) = pending rb.
Proof.
  unfold in_bounds, store_nul, region, pending. intros Hpos Hnul.
  destruct (position rb <? length (data rb)) eqn:E; simpl.
  - apply Nat.ltb_lt in E.
    rewrite insert_take_drop, <- app_assoc by done. simpl.
    by apply cstr_app_nul.
  - apply Nat.ltb_ge in E. rewrite take_ge in * by lia. by apply cstr_app_nul.
Qed.

(** [scan] on pending bytes without the terminator: all of them go to the
    accumulator. *)
Lemma scan_miss (rb : SockReadBuffer) (terminator : list byte) (out : option (list byte)) :
  in_bounds rb → 0 < position rb →
  x00 ∉ pending rb → x00 ∉ terminator →
  (∀ l1 l2, pending rb ≠ l1 ++ terminator ++ l2) →
  ∃ rb', scan rb terminator out = (rb', Some (default [] out ++ pending rb), None) ∧
         position rb' = 0 ∧ length (data rb') = length (data rb).
Proof.
  intros Hin Hpos Hnul Hterm Hno. unfold scan, strstr.
  rewrite store_nul_cstr, cstr_id, find_None by done.
  rewrite store_nul_position.
  replace (0 <? position rb) with true by (symmetry; by apply Nat.ltb_lt).
  eexists. split; [|split].
  - unfold append. do 2 f_equal.
    pose proof (store_nul_pending rb) as Hp. unfold pending in *.
    rewrite store_nul_position in Hp. by rewrite Hp.
  - simpl. rewrite store_nul_position. lia.
  - rewrite shift_left_length; rewrite ?store_nul_position, ?store_nul_length; done.
Qed.

(** [scan] on pending bytes that contain the terminator: the bytes up to
    and including its first occurrence go to the accumulator, the rest stay
    pending. *)
Lemma scan_hit (rb : SockReadBuffer) (terminator pre post : list byte)
    (out : option (list byte)) :
  in_bounds rb → pending rb = pre ++ terminator ++ post →
  x00 ∉ pending rb → x00 ∉ terminator → terminator ≠ [] →
  (∀ l1 l2, pre ++ terminator = l1 ++ terminator ++ l2 → l2 = []) →
  ∃ rb', scan rb terminator out
         = (rb', Some (default [] out ++ pre ++ terminator), Some (length pre)) ∧
         pending rb' = post ∧ length (data rb') = length (data rb).
Proof.
  intros Hin Hpend Hnul Hterm Hne Hfirst. unfold scan, strstr.
  assert (position rb = length pre + length terminator + length post) as Hpos.
  { apply (f_equal length) in Hpend. unfold pending in Hpend.
    rewrite length_take, !length_app in Hpend. unfold in_bounds in Hin. lia. }
  rewrite store_nul_cstr, (cstr_id terminator), Hpend, find_first by done.
  unfold strlen. rewrite (cstr_id terminator) by done.
  assert (0 < length terminator) by (destruct terminator; [done|simpl; lia]).
  replace (0 <? length pre + length terminator) with true
    by (symmetry; apply Nat.ltb_lt; lia).
  pose proof (store_nul_pending rb) as Hp.
  pose proof (store_nul_position rb) as Hq.
  pose proof (store_nul_length rb) as Hl.
  unfold in_bounds in Hin.
  eexists. split; [|split].
  - unfold append. do 4 f_equal.
    transitivity (take (length pre + length terminator) (pending (store_nul rb))).
    { unfold pending. rewrite take_take. f_equal. lia. }
    rewrite Hp, Hpend, app_assoc, take_app_length'; [done|].
    by rewrite length_app.
  - rewrite shift_left_pending by lia.
    rewrite Hp, Hpend, app_assoc, drop_app_length'; [done|].
    by rewrite length_app.
  - rewrite shift_left_length; lia.
Qed.

(** The buffer after a refill that stored the chunk [bs]. *)
Lemma refilled_pending (rb : SockReadBuffer) (bs : list byte) :
  length bs ≤ length (data rb) →
  let rb' := {| position := length bs; data := bs ++ drop (length bs) (data rb);
                filler := filler rb |} in
  in_bounds rb' ∧ pending rb' = bs ∧ length (data rb') = length (data rb).
Proof.
  intros Hlen. unfold in_bounds, pending. simpl.
  rewrite length_app, length_drop, take_app_length. split; [lia|]. split; [done|lia].
Qed.

(** One [socket_read] on a script that starts with a chunk. *)
Lemma socket_read_chunk (sock : SysSocket) (buf bs : list byte) (nbyte : nat)
    (tmout_ms errp : Z) (w : World) (rest : list Answer) :
  script w = chunk bs ++ rest → bs ≠ [] → length bs ≤ nbyte →
  ∃ w', socket_read sock buf nbyte tmout_ms errp w
        = (length bs, bs ++ drop (length bs) buf, 0%Z, w') ∧
        script w' = rest.
Proof.
  intros Hscript Hne Hlen.
  unfold socket_read, socket_select, socket_get_error, recv, recv_rc, delivered.
  rewrite syscall_unfold. unfold next_answer. rewrite Hscript. simpl.
  rewrite !syscall_unfold. simpl.
  rewrite take_ge by done.
  destruct bs as [|b bs]; [done|].
  replace (0 <? Z.of_nat (length (b :: bs)))%Z with true
    by (symmetry; apply Z.ltb_lt; simpl; lia).
  rewrite Nat2Z.id. eexists. split; [reflexivity|done].
Qed.

Lemma chunks_cons (bs : list byte) (bss : list (list byte)) :
  chunks (bs :: bss) = chunk bs ++ chunks bss.
Proof. reflexivity. Qed.

(** The text loop on an empty buffer, when the stream arrives as the
    chunks [cs], none of which contains the terminator, followed by a chunk
    that contains it whole. *)
Lemma read_text_loop_unsplit (cs : list (list byte)) :
  ∀ (fuel : nat) (sock : SysSocket) (terminator : list byte) (tmout_ms : Z)
    (rb : SockReadBuffer) (out : option (list byte)) (errp : Z) (w : World)
    (pre post : list byte) (rest : list Answer),
  position rb = 0 → length cs < fuel →
  terminator ≠ [] → x00 ∉ terminator →
  Forall (λ b, fits (length (data rb)) b ∧ absent terminator b) cs →
  fits (length (data rb)) (pre ++ terminator ++ post) →
  first_at terminator pre →
  script w = chunks (cs ++ [pre ++ terminator ++ post]) ++ rest →
  ∃ rb' w',
    read_text_loop fuel sock terminator tmout_ms rb out errp w
    = (rb', Some (default [] out ++ concat cs ++ pre ++ terminator), 0%Z, w') ∧
    pending rb' = post ∧ script w' = rest ∧
    length (data rb') = length (data rb).
Proof.
  induction cs as [|b cs IH];
    intros fuel sock terminator tmout_ms rb out errp w pre post rest
           Hpos Hfuel Hne Hterm Hcs Hlast Hfirst Hscript;
    (destruct fuel as [|fuel]; [simpl in Hfuel; lia|]); simpl; rewrite Hpos; simpl.
  - destruct Hlast as (Hc & Hlen & Hnul).
    rewrite app_nil_l, chunks_cons in Hscript.
    change (chunks []) with (@nil Answer) in Hscript. rewrite app_nil_r in Hscript.
    destruct (socket_read_chunk sock (data rb) _ (length (data rb)) tmout_ms errp w
                _ Hscript Hc Hlen) as (w1 & -> & Hw1).
    simpl.
    destruct (refilled_pending rb _ Hlen) as (Hin & Hpend & Hl).
    destruct (scan_hit _ terminator pre post out Hin Hpend) as (rb' & -> & Hp' & Hl');
      try done; [by rewrite Hpend|].
    exists rb', w1. split; [done|]. split; [done|]. split; [done|]. by rewrite Hl'.
  - apply Forall_cons in Hcs as [[(Hb & Hlen & Hnul) Habs] Hcs].
    rewrite <- app_comm_cons, chunks_cons, <- app_assoc in Hscript.
    destruct (socket_read_chunk sock (data rb) _ (length (data rb)) tmout_ms errp w
                _ Hscript Hb Hlen) as (w1 & -> & Hw1).
    simpl.
    destruct (refilled_pending rb _ Hlen) as (Hin & Hpend & Hl).
    destruct (scan_miss _ terminator out Hin) as (rb1 & -> & Hp1 & Hl1);
      try done.
    { simpl. destruct b; [done|simpl; lia]. }
    { by rewrite Hpend. }
    { by rewrite Hpend. }
    rewrite Hpend.
    destruct (IH fuel sock terminator tmout_ms rb1 (Some (default [] out ++ b)) 0%Z w1
                pre post rest Hp1 ltac:(simpl in Hfuel; lia) Hne Hterm)
      as (rb' & w' & -> & Hp' & Hw' & Hl'); try done.
    { by rewrite Hl1, Hl. }
    { by rewrite Hl1, Hl. }
    exists rb', w'. split; [|split; [done|split; [done|]]].
    + simpl. by rewrite <- !app_assoc.
    + by rewrite Hl', Hl1.
Qed.


Transparent syscall.

End Properties.

(** ** Scenarios on Linux *)

(** C1, on a terminator split across two chunks.  The stream is
    ["A\r\n"] and the terminator ["\r\n"].  Received in one chunk, the
    line is returned.  Received as ["A\r"] then ["\n"], the terminator is
    not found in either chunk: both are moved to the accumulator, the loop
    asks for more, and with nothing more arriving the call fails with
    [ETIMEDOUT] and returns NULL, the three bytes gone from the buffer.  If
    a second line follows, the call returns both lines as one. *)
Theorem socket_read_text_split_terminator :
  let read answers := socket_read_text (with_fd 3 (fresh 8)) [CR; LF] 50 0 (boot answers) in
  (let '(out, sock', e, w') := read (chunks [["A"; CR; LF]]%byte) in
   out = Some ["A"; CR; LF]%byte ∧ e = 0%Z) ∧
  (let '(out, sock', e, w') := read (chunks [["A"; CR]; [LF]]%byte) in
   out = None ∧ e = ETIMEDOUT ∧
   received (trace w') = ["A"; CR; LF]%byte ∧ pending (readBuffer sock') = []) ∧
  (let '(out, sock', e, w') := read (chunks [["A"; CR]; [LF]; ["B"; CR; LF]]%byte) in
   out = Some ["A"; CR; LF; "B"; CR; LF]%byte ∧ e = 0%Z).
Proof. vm_compute. repeat split. Qed.

(** C2, on bytes pending when the call starts.  A text read of the chunk
    ["A\nBCDEF"] returns ["A\n"] and leaves five bytes pending; the binary
    read of 3 bytes that follows reports no error and returns all five,
    with [*actualSize] 5. *)
Theorem socket_read_binary_returns_all_pending :
  let w := boot (chunks [["A"; LF; "B"; "C"; "D"; "E"; "F"]]%byte) in
  let '(line, sock1, e1, w1) := socket_read_text (with_fd 3 (fresh 8)) [LF] 50 0 w in
  let '(out, actualSize, sock2, e2, w2) := socket_read_binary sock1 3 50 0 w1 in
  line = Some ["A"; LF]%byte ∧ e1 = 0%Z ∧
  pending (readBuffer sock1) = ["B"; "C"; "D"; "E"; "F"]%byte ∧
  e2 = 0%Z ∧ out = Some ["B"; "C"; "D"; "E"; "F"]%byte ∧ actualSize = 5.
Proof. vm_compute. repeat split. Qed.

(** C3, on a connected handle.  After [socket_connect] has stored
    descriptor 3, [socket_disconnect] closes it and leaves 3 in the handle,
    and a second [socket_disconnect] closes 3 again. *)
Theorem socket_disconnect_closes_twice :
  let '(_, sock, _, w) :=
    socket_connect (fresh 8) localhost 50 0 (boot [returns 3; returns 0; returns 0]) in
  let '(sock1, w1) := socket_disconnect sock w in
  let '(sock2, w2) := socket_disconnect sock1 w1 in
  sockfd sock = 3%Z ∧ sockfd sock1 = 3%Z ∧ sockfd sock2 = 3%Z ∧
  since w w1 = [(sys_close 3, quiet)] ∧
  since w1 w2 = [(sys_close 3, quiet)].
Proof. vm_compute. repeat split. Qed.

(** C4, on a line served from the pending bytes.  A first text read of the
    chunk ["X\nA\n"] leaves ["A\n"] pending.  A second one entered with
    [*errp] 0 returns ["A\n"] without a system call.  Entered with [*errp]
    7, it makes no system call either, leaves 7 in [*errp], takes the line
    out of the buffer and returns NULL. *)
Theorem socket_read_text_keeps_stale_error :
  let w := boot (chunks [["X"; LF; "A"; LF]]%byte) in
  let '(_, sock, _, w1) := socket_read_text (with_fd 3 (fresh 8)) [LF] 50 0 w in
  pending (readBuffer sock) = ["A"; LF]%byte ∧
  (let '(out, sock', e, w') := socket_read_text sock [LF] 50 0 w1 in
   out = Some ["A"; LF]%byte ∧ e = 0%Z ∧ w' = w1) ∧
  (let '(out, sock', e, w') := socket_read_text sock [LF] 50 7 w1 in
   out = None ∧ e = 7%Z ∧ w' = w1 ∧ pending (readBuffer sock') = []).
Proof. vm_compute. repeat split. Qed.

(** C6 as stated fails on a failed call.  The peer closes after 3 of the
    10 bytes expected: [socket_read_binary] fails with the peer-closed
    error and returns NULL, and the 3 bytes received are neither returned
    nor in the buffer. *)
Lemma read_binary_failure_drops_bytes :
  let sock := with_fd 3 (fresh 8) in
  let w := boot (chunks [["A"; "B"; "C"]]%byte ++ [ready; no_error; returns 0]) in
  let '(out, actualSize, sock', e, w') := socket_read_binary sock 10 50 0 w in
  in_bounds (readBuffer sock) ∧
  e = PEER_CLOSED ∧ out = None ∧ actualSize = 0 ∧
  received (since w w') = ["A"; "B"; "C"]%byte ∧
  ¬ holds_unreturned (readBuffer sock) (readBuffer sock') (since w w') out.
Proof.
  vm_compute. split; [lia|]. repeat split. intros Habs. discriminate Habs.
Qed.

(** * Further properties of the file *)

Section Coverage.
Context `{Errno}.

(** ** What a text read returns *)





(** ** Text read from the pending bytes *)

(** X3. A line that is already pending is returned without a system call:
    when the pending bytes are text that contains the terminator, and
    [*errp] is 0 on entry, [socket_read_text] returns the bytes up to and
    including its first occurrence, leaves the rest pending, and the world
    is as it was. *)
Theorem socket_read_text_pending_line (sock : SysSocket) (terminator pre post : list byte)
    (tmout_ms : Z) (w : World) :
  in_bounds (readBuffer sock) →
  pending (readBuffer sock) = pre ++ terminator ++ post →
  x00 ∉ pending (readBuffer sock) →
  terminator ≠ [] →
  first_at terminator pre →
  ∃ sock',
    socket_read_text sock terminator tmout_ms 0 w
    = (Some (pre ++ terminator), sock', 0%Z, w) ∧
    sockfd sock' = sockfd sock ∧
    pending (readBuffer sock') = post ∧
    length (data (readBuffer sock')) = length (data (readBuffer sock)).
Proof.
  intros Hin Hpend Hnul Hne Hfirst.
  assert (x00 ∉ terminator) as Hterm.
  { intros Hx. apply Hnul. rewrite Hpend, !elem_of_app. auto. }
  assert (position (readBuffer sock) ≠ 0) as Hpos.
  { intros Hz. unfold pending in Hpend. rewrite Hz, take_0 in Hpend.
    destruct pre, terminator; done. }
  unfold socket_read_text. rewrite Nat.add_succ_r. simpl.
  apply Nat.eqb_neq in Hpos. rewrite Hpos. simpl.
  destruct (scan_hit (readBuffer sock) terminator pre post None Hin Hpend Hnul Hterm
              Hne Hfirst) as (rb' & -> & Hp' & Hl').
  simpl. by eexists.
Qed.

(** X4. With the empty string as terminator, [socket_read_text] returns
    NULL and takes no byte out of the buffer: what was pending and what the
    call received is pending afterwards.  If bytes were pending on entry it
    makes no system call and leaves [*errp] alone. *)
Theorem socket_read_text_empty_terminator (sock : SysSocket) (terminator : list byte)
    (tmout_ms errp : Z) (w : World) :
  in_bounds (readBuffer sock) →
  cstr terminator = [] →
  let '(out, sock', e, w') := socket_read_text sock terminator tmout_ms errp w in
  out = None ∧
  pending (readBuffer sock') = pending (readBuffer sock) ++ received (since w w') ∧
  (position (readBuffer sock) ≠ 0 → e = errp ∧ w' = w).
Proof.
  intros Hin Hterm.
  assert (∀ rb out, scan rb terminator out = (store_nul rb, out, Some 0)) as Hscan.
  { intros rb out. unfold scan, strstr, strlen. rewrite Hterm.
    rewrite find_unfold. simpl. done. }
  unfold socket_read_text. rewrite Nat.add_succ_r. simpl.
  destruct (position (readBuffer sock) =? 0) eqn:Ez; simpl.
  - apply Nat.eqb_eq in Ez.
    pose proof (refill_spec sock (readBuffer sock) (length (data (readBuffer sock)))
                  tmout_ms errp w Ez ltac:(lia)) as R.
    destruct (socket_read sock _ _ tmout_ms errp w) as [[[n buf] e1] w1].
    cbn zeta in R. destruct R as (_ & _ & _ & _ & _ & log & T & _ & R).
    destruct (negb (e1 =? 0)%Z); simpl.
    + rewrite (since_app _ _ _ T).
      destruct (e1 =? 0)%Z; (split; [done|]); (split; [by rewrite R|lia]).
    + rewrite Hscan. simpl. rewrite store_nul_pending, (since_app _ _ _ T).
      destruct (e1 =? 0)%Z; (split; [done|]); (split; [by rewrite R|lia]).
  - rewrite Hscan. simpl. rewrite store_nul_pending, since_app with (log := []) by done.
    simpl. rewrite app_nil_r.
    destruct (errp =? 0)%Z; done.
Qed.

(** X5. A partial line left pending is completed by what arrives next.
    The pending bytes are text without the terminator; the stream goes on
    with the chunks [cs], none of which contains the terminator, and a chunk
    that contains it.  [socket_read_text] then returns the pending bytes
    followed by the stream up to and including the terminator, with [*errp]
    0 whatever it held, and leaves the rest of the last chunk pending. *)
Theorem socket_read_text_resumes (sock : SysSocket) (terminator : list byte)
    (tmout_ms errp : Z) (w : World) (cs : list (list byte)) (pre post : list byte)
    (rest : list Answer) :
  in_bounds (readBuffer sock) →
  position (readBuffer sock) ≠ 0 →
  x00 ∉ pending (readBuffer sock) →
  absent terminator (pending (readBuffer sock)) →
  terminator ≠ [] → x00 ∉ terminator →
  Forall (λ b, fits (length (data (readBuffer sock))) b ∧ absent terminator b) cs →
  fits (length (data (readBuffer sock))) (pre ++ terminator ++ post) →
  first_at terminator pre →
  script w = chunks (cs ++ [pre ++ terminator ++ post]) ++ rest →
  ∃ sock' w',
    socket_read_text sock terminator tmout_ms errp w
    = (Some (pending (readBuffer sock) ++ concat cs ++ pre ++ terminator),
       sock', 0%Z, w') ∧
    sockfd sock' = sockfd sock ∧
    pending (readBuffer sock') = post ∧ script w' = rest.
Proof.
  intros Hin Hpos Hnul Habs Hne Hterm Hcs Hlast Hfirst Hscript.
  unfold socket_read_text. rewrite Nat.add_succ_r. simpl.
  pose proof Hpos as Hpos'. apply Nat.eqb_neq in Hpos'. rewrite Hpos'. simpl.
  destruct (scan_miss (readBuffer sock) terminator None Hin ltac:(lia) Hnul Hterm Habs)
    as (rb1 & -> & Hp1 & Hl1).
  assert (length cs < length (script w) + 1) as Hfuel.
  { rewrite Hscript, length_app. unfold chunks. rewrite bind_app, length_app.
    assert (length cs ≤ length (cs ≫= chunk)).
    { clear. induction cs as [|b cs IH]; [done|].
      rewrite bind_cons, length_app. simpl. lia. }
    lia. }
  rewrite <- Hl1 in Hcs, Hlast.
  change (default [] None ++ pending (readBuffer sock)) with (pending (readBuffer sock)).
  destruct (read_text_loop_unsplit cs _ sock terminator tmout_ms rb1
              (Some (pending (readBuffer sock))) errp w pre post rest
              Hp1 Hfuel Hne Hterm Hcs Hlast Hfirst Hscript)
    as (rb' & w' & -> & Hp & Hw & _).
  simpl. by eexists _, _.
Qed.

(** ** Text read that fails *)

(** One [socket_read] that finds the peer gone. *)
Lemma socket_read_hangup (sock : SysSocket) (buf : list byte) (nbyte : nat)
    (tmout_ms errp : Z) (w : World) (rest : list Answer) :
  script w = hangup ++ rest →
  ∃ w', socket_read sock buf nbyte tmout_ms errp w = (0, buf, PEER_CLOSED, w') ∧
        script w' = rest ∧ received (since w w') = [].
Proof.
  intros Hscript.
  unfold socket_read, socket_select, socket_get_error, recv, recv_rc, delivered.
  rewrite syscall_unfold. unfold next_answer. rewrite Hscript. simpl.
  rewrite ?syscall_unfold. simpl. rewrite take_nil. simpl.
  eexists. split; [reflexivity|]. split; [done|].
  rewrite since_app with (log := [_; _; _]) by reflexivity.
  simpl. unfold delivered. simpl. by rewrite take_nil.
Qed.

(** One [socket_read] that times out. *)
Lemma socket_read_silence (sock : SysSocket) (buf : list byte) (nbyte : nat)
    (tmout_ms errp : Z) (w : World) (rest : list Answer) :
  script w = silence ++ rest →
  ∃ w', socket_read sock buf nbyte tmout_ms errp w = (0, buf, ETIMEDOUT, w') ∧
        script w' = rest ∧ received (since w w') = [].
Proof.
  intros Hscript.
  unfold socket_read, socket_select.
  rewrite syscall_unfold. unfold next_answer. rewrite Hscript. simpl.
  eexists. split; [reflexivity|]. split; [done|].
  by rewrite since_app with (log := [_]) by reflexivity.
Qed.

(** The two ways a read fails in the scenarios, with the error each gives. *)
Lemma socket_read_fails (sock : SysSocket) (buf : list byte) (nbyte : nat)
    (tmout_ms errp : Z) (w : World) (tail rest : list Answer) (code : Z) :
  tail = hangup ∧ code = PEER_CLOSED ∨ tail = silence ∧ code = ETIMEDOUT →
  script w = tail ++ rest →
  code ≠ 0%Z ∧
  ∃ w', socket_read sock buf nbyte tmout_ms errp w = (0, buf, code, w') ∧
        script w' = rest.
Proof.
  intros [[-> ->]|[-> ->]] Hscript.
  - split; [done|].
    destruct (socket_read_hangup sock buf nbyte tmout_ms errp w rest Hscript)
      as (w' & ? & ? & _). by exists w'.
  - split; [apply ETIMEDOUT_nonzero|].
    destruct (socket_read_silence sock buf nbyte tmout_ms errp w rest Hscript)
      as (w' & ? & ? & _). by exists w'.
Qed.

(** The text loop over chunks that do not contain the terminator: all go to
    the accumulator, and the loop is where it would be had it started after
    them. *)
Lemma read_text_loop_misses (cs : list (list byte)) :
  ∀ (fuel : nat) (sock : SysSocket) (terminator : list byte) (tmout_ms : Z)
    (rb : SockReadBuffer) (out : option (list byte)) (errp : Z) (w : World)
    (rest : list Answer),
  position rb = 0 → length cs ≤ fuel → x00 ∉ terminator →
  Forall (λ b, fits (length (data rb)) b ∧ absent terminator b) cs →
  script w = chunks cs ++ rest →
  ∃ rb' e' w',
    read_text_loop fuel sock terminator tmout_ms rb out errp w
    = read_text_loop (fuel - length cs) sock terminator tmout_ms rb'
        (match cs with [] => out | _ => Some (default [] out ++ concat cs) end) e' w' ∧
    position rb' = 0 ∧ length (data rb') = length (data rb) ∧ script w' = rest ∧
    (cs = [] → e' = errp).
Proof.
  induction cs as [|b cs IH];
    intros fuel sock terminator tmout_ms rb out errp w rest Hpos Hfuel Hterm Hcs Hscript.
  { exists rb, errp, w. rewrite Nat.sub_0_r. done. }
  destruct fuel as [|fuel]; [simpl in Hfuel; lia|].
  apply Forall_cons in Hcs as [[(Hb & Hlen & Hnul) Habs] Hcs].
  rewrite chunks_cons, <- app_assoc in Hscript.
  destruct (socket_read_chunk sock (data rb) _ (length (data rb)) tmout_ms errp w
              _ Hscript Hb Hlen) as (w1 & Hread & Hw1).
  destruct (refilled_pending rb _ Hlen) as (Hin & Hpend & Hl).
  destruct (scan_miss _ terminator out Hin) as (rb1 & Hscan & Hp1 & Hl1);
    [simpl; destruct b; [done|simpl; lia]|by rewrite Hpend|done|by rewrite Hpend|].
  rewrite Hpend in Hscan.
  destruct (IH fuel sock terminator tmout_ms rb1 (Some (default [] out ++ b)) 0%Z w1 rest
              Hp1 ltac:(simpl in Hfuel; lia) Hterm)
    as (rb' & e' & w' & Hloop & Hp' & Hl' & Hw' & _); [by rewrite Hl1, Hl|done|].
  exists rb', e', w'. split; [|split; [done|split; [by rewrite Hl', Hl1|done]]].
  simpl read_text_loop at 1. rewrite Hpos. simpl. rewrite Hread. simpl.
  rewrite Hscan, Hloop. simpl.
  destruct cs; simpl; rewrite <- ?app_assoc, ?app_nil_r; done.
Qed.

(** X6. A text read that the stream does not satisfy fails and loses what
    it took.  On an empty buffer, when the chunks [cs] arrive, none of which
    contains the terminator, and then the peer closes or the wait times out,
    [socket_read_text] returns NULL with the peer-closed error or
    [ETIMEDOUT], and the bytes received are not pending any more. *)
Theorem socket_read_text_fails (sock : SysSocket) (terminator : list byte)
    (tmout_ms errp : Z) (w : World) (cs : list (list byte)) (tail rest : list Answer)
    (code : Z) :
  position (readBuffer sock) = 0 →
  x00 ∉ terminator →
  Forall (λ b, fits (length (data (readBuffer sock))) b ∧ absent terminator b) cs →
  tail = hangup ∧ code = PEER_CLOSED ∨ tail = silence ∧ code = ETIMEDOUT →
  script w = chunks cs ++ tail ++ rest →
  ∃ sock' w',
    socket_read_text sock terminator tmout_ms errp w = (None, sock', code, w') ∧
    pending (readBuffer sock') = [] ∧ script w' = rest.
Proof.
  intros Hpos Hterm Hcs Htail Hscript. unfold socket_read_text.
  assert (length cs < length (script w) + 2) as Hfuel.
  { rewrite Hscript, length_app. unfold chunks.
    assert (length cs ≤ length (cs ≫= chunk)).
    { clear. induction cs as [|b cs IH]; [done|].
      rewrite bind_cons, length_app. simpl. lia. }
    lia. }
  destruct (read_text_loop_misses cs (length (script w) + 2) sock terminator tmout_ms
              (readBuffer sock) None errp w (tail ++ rest) Hpos ltac:(lia) Hterm Hcs
              Hscript)
    as (rb1 & e1 & w1 & -> & Hp1 & Hl1 & Hw1 & _).
  destruct (length (script w) + 2 - length cs) as [|fuel] eqn:Ef; [lia|].
  simpl. rewrite Hp1. simpl.
  destruct (socket_read_fails sock (data rb1) (length (data rb1)) tmout_ms e1 w1
              tail rest code Htail Hw1) as (Hcode & w' & -> & Hw').
  simpl. apply Z.eqb_neq in Hcode. rewrite Hcode. simpl. rewrite Hcode.
  eexists _, w'. split; [reflexivity|]. split; [|done].
  unfold pending. simpl. by rewrite take_0.
Qed.

(** ** Binary read, chunk by chunk *)

Lemma read_binary_loop_done (fuel : nat) (sock : SysSocket) (expectedSize : nat)
    (tmout_ms : Z) (rb : SockReadBuffer) (out : option (list byte)) (errp : Z) (w : World) :
  expectedSize ≤ length (default [] out) →
  read_binary_loop fuel sock expectedSize tmout_ms rb out errp w = (rb, out, errp, w).
Proof.
  intros Hdone. apply Nat.leb_le in Hdone. destruct fuel; simpl; by rewrite Hdone.
Qed.

(** The binary loop over chunks that the frame has room for: all go to the
    accumulator, and the loop is where it would be had it started after
    them. *)
Lemma read_binary_loop_chunks (cs : list (list byte)) :
  ∀ (fuel : nat) (sock : SysSocket) (expectedSize : nat) (tmout_ms : Z)
    (rb : SockReadBuffer) (out : option (list byte)) (errp : Z) (w : World)
    (rest : list Answer),
  position rb = 0 → length cs ≤ fuel →
  Forall (λ b, b ≠ [] ∧ length b ≤ length (data rb)) cs →
  length (default [] out) + length (concat cs) ≤ expectedSize →
  script w = chunks cs ++ rest →
  ∃ rb' e' w',
    read_binary_loop fuel sock expectedSize tmout_ms rb out errp w
    = read_binary_loop (fuel - length cs) sock expectedSize tmout_ms rb'
        (match cs with [] => out | _ => Some (default [] out ++ concat cs) end) e' w' ∧
    position rb' = 0 ∧ length (data rb') = length (data rb) ∧ script w' = rest ∧
    (cs = [] → e' = errp) ∧ (cs ≠ [] → e' = 0%Z).
Proof.
  induction cs as [|b cs IH];
    intros fuel sock expectedSize tmout_ms rb out errp w rest Hpos Hfuel Hcs Hroom Hscript.
  { exists rb, errp, w. rewrite Nat.sub_0_r. done. }
  destruct fuel as [|fuel]; [simpl in Hfuel; lia|].
  apply Forall_cons in Hcs as [[Hb Hlen] Hcs].
  simpl in Hroom. rewrite length_app in Hroom.
  assert (0 < length b) as Hbl by (destruct b; [done|simpl; lia]).
  rewrite chunks_cons, <- app_assoc in Hscript.
  set (nbytesToRead := length (data rb) `min` (expectedSize - length (default [] out))).
  destruct (socket_read_chunk sock (data rb) _ nbytesToRead tmout_ms errp w
              _ Hscript Hb ltac:(unfold nbytesToRead; lia)) as (w1 & Hread & Hw1).
  destruct (IH fuel sock expectedSize tmout_ms
              {| position := 0; data := b ++ drop (length b) (data rb); filler := filler rb |}
              (Some (default [] out ++ b)) 0%Z w1 rest eq_refl
              ltac:(simpl in Hfuel; lia))
    as (rb' & e' & w' & Hloop & Hp' & Hl' & Hw' & He0 & He'); [| |done|].
  { simpl. rewrite length_app, length_drop.
    replace (length b + (length (data rb) - length b)) with (length (data rb)) by lia.
    done. }
  { simpl. rewrite length_app. lia. }
  exists rb', e', w'.
  split; [|split; [done|split; [|split; [done|split; [done|]]]]].
  - simpl read_binary_loop at 1.
    replace (expectedSize <=? length (default [] out)) with false
      by (symmetry; apply Nat.leb_gt; lia).
    rewrite Hpos. simpl. fold nbytesToRead. rewrite Hread. simpl.
    unfold append. rewrite take_app_length, Hloop. simpl.
    destruct cs; simpl; rewrite <- ?app_assoc, ?app_nil_r; done.
  - rewrite Hl'. simpl. rewrite length_app, length_drop. lia.
  - intros _. destruct cs; [by apply He0|by apply He'].
Qed.

(** A turn of the binary loop that finds bytes pending moves them to the
    accumulator. *)
Lemma read_binary_loop_pending (fuel : nat) (sock : SysSocket) (expectedSize : nat)
    (tmout_ms : Z) (rb : SockReadBuffer) (out : option (list byte)) (errp : Z) (w : World) :
  position rb ≠ 0 → length (default [] out) < expectedSize →
  read_binary_loop (S fuel) sock expectedSize tmout_ms rb out errp w
  = read_binary_loop fuel sock expectedSize tmout_ms
      {| position := 0; data := data rb; filler := filler rb |}
      (Some (default [] out ++ pending rb)) errp w.
Proof.
  intros Hpos Hlt. cbn [read_binary_loop].
  replace (expectedSize <=? length (default [] out)) with false
    by (symmetry; apply Nat.leb_gt; lia).
  replace (position rb =? 0) with false by (symmetry; by apply Nat.eqb_neq).
  reflexivity.
Qed.

Lemma chunks_length (cs : list (list byte)) : length cs ≤ length (chunks cs).
Proof.
  induction cs as [|b cs IH]; [done|].
  rewrite chunks_cons, length_app. simpl. lia.
Qed.

(** The binary loop from its start, over the pending bytes and the chunks
    that the frame has room for. *)
Lemma read_binary_loop_stream (cs : list (list byte)) (fuel : nat) (sock : SysSocket)
    (expectedSize : nat) (tmout_ms : Z) (rb : SockReadBuffer) (errp : Z) (w : World)
    (rest : list Answer) :
  in_bounds rb → length cs + 1 ≤ fuel →
  Forall (λ b, b ≠ [] ∧ length b ≤ length (data rb)) cs →
  position rb + length (concat cs) ≤ expectedSize →
  script w = chunks cs ++ rest →
  ∃ fuel' rb' out' w',
    read_binary_loop fuel sock expectedSize tmout_ms rb None errp w
    = read_binary_loop fuel' sock expectedSize tmout_ms rb' out'
        (match cs with [] => errp | _ => 0%Z end) w' ∧
    fuel ≤ fuel' + length cs + 1 ∧
    default [] out' = pending rb ++ concat cs ∧
    position rb' = 0 ∧ length (data rb') = length (data rb) ∧ script w' = rest.
Proof.
  unfold in_bounds. intros Hin Hfuel Hcs Hroom Hscript.
  assert (length (pending rb) = position rb) as Hpl.
  { unfold pending. rewrite length_take. lia. }
  destruct (position rb) as [|p] eqn:Hpos.
  - destruct (read_binary_loop_chunks cs fuel sock expectedSize tmout_ms rb None errp w
                rest Hpos ltac:(lia) Hcs ltac:(simpl; lia) Hscript)
      as (rb' & e' & w' & Hloop & Hp' & Hl' & Hw' & He0 & He').
    exists (fuel - length cs), rb',
      (match cs with [] => None | _ => Some (default [] None ++ concat cs) end), w'.
    split; [|split; [lia|split; [|done]]].
    + rewrite Hloop. by destruct cs; [rewrite He0|rewrite He'].
    + apply length_zero_iff_nil in Hpl. rewrite Hpl. by destruct cs.
  - destruct fuel as [|fuel]; [lia|].
    rewrite read_binary_loop_pending by (simpl; lia).
    destruct (read_binary_loop_chunks cs fuel sock expectedSize tmout_ms
                {| position := 0; data := data rb; filler := filler rb |}
                (Some (default [] None ++ pending rb)) errp w rest eq_refl ltac:(lia)
                Hcs ltac:(simpl; lia) Hscript)
      as (rb' & e' & w' & Hloop & Hp' & Hl' & Hw' & He0 & He').
    exists (fuel - length cs), rb',
      (match cs with
       | [] => Some (default [] None ++ pending rb)
       | _ => Some (default [] (Some (default [] None ++ pending rb)) ++ concat cs)
       end), w'.
    split; [|split; [lia|split; [|done]]].
    + rewrite Hloop. by destruct cs; [rewrite He0|rewrite He'].
    + destruct cs; simpl; by rewrite ?app_nil_r.
Qed.

(** X7. For every way the stream splits into chunks, a binary read returns
    the frame.  When the pending bytes and the chunks [cs] that arrive (none
    empty, none longer than the buffer) add up to the expected size,
    [socket_read_binary] returns the pending bytes followed by the chunks,
    with [*actualSize] the expected size and [*errp] 0, empties the buffer
    and leaves the answers after the chunks unused. *)
Theorem socket_read_binary_chunks (sock : SysSocket) (expectedSize : nat)
    (tmout_ms errp : Z) (w : World) (cs : list (list byte)) (rest : list Answer) :
  in_bounds (readBuffer sock) →
  0 < expectedSize →
  position (readBuffer sock) + length (concat cs) = expectedSize →
  Forall (λ b, b ≠ [] ∧ length b ≤ length (data (readBuffer sock))) cs →
  script w = chunks cs ++ rest →
  ∃ sock' w',
    socket_read_binary sock expectedSize tmout_ms errp w
    = (Some (pending (readBuffer sock) ++ concat cs), expectedSize, sock', 0%Z, w') ∧
    sockfd sock' = sockfd sock ∧
    position (readBuffer sock') = 0 ∧ script w' = rest.
Proof.
  intros Hin Hsize Hsum Hcs Hscript.
  pose proof (chunks_length cs) as Hlen.
  assert (length (pending (readBuffer sock)) = position (readBuffer sock)) as Hpl.
  { unfold pending, in_bounds in *. rewrite length_take. lia. }
  unfold socket_read_binary.
  destruct (read_binary_loop_stream cs (expectedSize + length (script w) + 1) sock
              expectedSize tmout_ms (readBuffer sock) 0%Z w rest Hin)
    as (fuel' & rb' & out' & w' & -> & _ & Hout & Hp' & _ & Hw'); try done.
  { rewrite Hscript, length_app. lia. }
  { lia. }
  assert (length (default [] out') = expectedSize) as Hall.
  { rewrite Hout, length_app, Hpl. lia. }
  rewrite read_binary_loop_done by lia.
  replace (match cs with [] => 0%Z | _ => 0%Z end) with 0%Z by (by destruct cs).
  destruct out' as [bs|]; simpl in Hout, Hall; [|lia]. subst bs.
  simpl. rewrite Hall. by eexists _, w'.
Qed.

(** X9. A binary read that the stream does not satisfy fails and loses what
    it took.  When the pending bytes and the chunks [cs] that arrive fall
    short of the expected size, and then the peer closes or the wait times
    out, [socket_read_binary] returns NULL with [*actualSize] 0 and the
    peer-closed error or [ETIMEDOUT], and neither the bytes that were
    pending nor the bytes received are in the buffer any more. *)
Theorem socket_read_binary_fails (sock : SysSocket) (expectedSize : nat)
    (tmout_ms errp : Z) (w : World) (cs : list (list byte)) (tail rest : list Answer)
    (code : Z) :
  in_bounds (readBuffer sock) →
  position (readBuffer sock) + length (concat cs) < expectedSize →
  Forall (λ b, b ≠ [] ∧ length b ≤ length (data (readBuffer sock))) cs →
  tail = hangup ∧ code = PEER_CLOSED ∨ tail = silence ∧ code = ETIMEDOUT →
  script w = chunks cs ++ tail ++ rest →
  ∃ sock' w',
    socket_read_binary sock expectedSize tmout_ms errp w = (None, 0, sock', code, w') ∧
    sockfd sock' = sockfd sock ∧
    position (readBuffer sock') = 0 ∧ script w' = rest.
Proof.
  intros Hin Hsum Hcs Htail Hscript.
  pose proof (chunks_length cs) as Hlen.
  assert (length (pending (readBuffer sock)) = position (readBuffer sock)) as Hpl.
  { unfold pending, in_bounds in *. rewrite length_take. lia. }
  unfold socket_read_binary.
  destruct (read_binary_loop_stream cs (expectedSize + length (script w) + 1) sock
              expectedSize tmout_ms (readBuffer sock) 0%Z w (tail ++ rest) Hin)
    as (fuel' & rb' & out' & w1 & -> & Hfuel & Hout & Hp' & _ & Hw1); try done.
  { rewrite Hscript, length_app. lia. }
  { lia. }
  assert (length (default [] out') < expectedSize) as Hshort.
  { rewrite Hout, length_app, Hpl. lia. }
  destruct fuel' as [|fuel'].
  { rewrite Hscript, length_app in Hfuel. lia. }
  cbn [read_binary_loop].
  replace (expectedSize <=? length (default [] out')) with false
    by (symmetry; apply Nat.leb_gt; lia).
  rewrite Hp'. cbn [Nat.eqb].
  destruct (socket_read_fails sock (data rb')
              (length (data rb') `min` (expectedSize - length (default [] out')))
              tmout_ms (match cs with [] => 0%Z | _ => 0%Z end) w1
              tail rest code Htail Hw1) as (Hcode & w' & -> & Hw').
  apply Z.eqb_neq in Hcode. cbn [andb]. rewrite Hcode. cbn [negb]. rewrite Hcode.
  by eexists _, w'.
Qed.

(** ** Binary read never takes more than the frame *)

(** The accumulator and the pending bytes together stay within the expected
    size, and the loop gives up only while the accumulator is short of
    it. *)
Lemma read_binary_loop_within (fuel : nat) (sock : SysSocket) (expectedSize : nat)
    (tmout_ms : Z) (rb : SockReadBuffer) (out : option (list byte)) (errp : Z) (w : World) :
  in_bounds rb →
  length (default [] out) + position rb ≤ expectedSize →
  let '(rb', out', e, w') :=
    read_binary_loop fuel sock expectedSize tmout_ms rb out errp w in
  length (default [] out') + position rb' ≤ expectedSize ∧
  (errp = 0%Z → e ≠ 0%Z → length (default [] out') < expectedSize ∧ position rb' = 0).
Proof.
  unfold in_bounds. revert rb out errp w.
  induction fuel as [|fuel IH]; intros rb out errp w Hin Hroom; simpl.
  { by destruct (expectedSize <=? _). }
  destruct (expectedSize <=? length (default [] out)) eqn:E; [done|].
  apply Nat.leb_gt in E.
  destruct (position rb =? 0) eqn:Ez; simpl.
  - apply Nat.eqb_eq in Ez.
    set (nbytesToRead := length (data rb) `min` (expectedSize - length (default [] out))).
    pose proof (refill_spec sock rb nbytesToRead tmout_ms errp w Ez ltac:(lia)) as R.
    destruct (socket_read sock (data rb) nbytesToRead tmout_ms errp w)
      as [[[n buf] e1] w1].
    cbn zeta in R. destruct R as (Hl1 & Hp1 & Hz & _). simpl in Hl1, Hp1, Hz.
    destruct (negb (e1 =? 0)%Z) eqn:Eerr.
    + apply negb_true_iff, Z.eqb_neq in Eerr. simpl. rewrite (Hz Eerr). split; lia.
    + apply negb_false_iff, Z.eqb_eq in Eerr. subst e1.
      specialize (IH {| position := 0; data := buf; filler := filler rb |}
                     (append out (take n buf)) 0%Z w1).
      destruct (read_binary_loop fuel sock expectedSize tmout_ms _ _ 0%Z w1)
        as [[[rb' out'] e'] w'].
      destruct IH as [IH1 IH2]; [simpl; lia| |split; [done|intros _; by apply IH2]].
      simpl. rewrite length_app, length_take. unfold nbytesToRead in Hp1. lia.
  - specialize (IH {| position := 0; data := data rb; filler := filler rb |}
                   (append out (take (position rb) (data rb))) errp w).
    destruct (read_binary_loop fuel sock expectedSize tmout_ms _ _ errp w)
      as [[[rb' out'] e'] w'].
    apply IH; simpl; [lia|]. rewrite length_app, length_take. lia.
Qed.

(** X8. A binary read never takes more from the socket than the frame
    needs.  When no more bytes are pending than are expected,
    [socket_read_binary] ends with an empty read buffer.  If it reports no
    error, the buffer it returns holds the bytes that were pending followed
    by the bytes received, [expectedSize] of them in all; if it reports an
    error, it returns NULL and 0 and has had fewer than [expectedSize]
    bytes. *)
Theorem socket_read_binary_frame (sock : SysSocket) (expectedSize : nat)
    (tmout_ms errp : Z) (w : World) :
  in_bounds (readBuffer sock) →
  position (readBuffer sock) ≤ expectedSize →
  let '(out, actualSize, sock', e, w') :=
    socket_read_binary sock expectedSize tmout_ms errp w in
  let stream := pending (readBuffer sock) ++ received (since w w') in
  position (readBuffer sock') = 0 ∧
  (e = 0%Z → default [] out = stream ∧ length stream = expectedSize ∧
             actualSize = expectedSize) ∧
  (e ≠ 0%Z → out = None ∧ actualSize = 0 ∧ length stream < expectedSize).
Proof.
  intros Hin Hfit. unfold socket_read_binary.
  pose proof (read_binary_loop_spec (expectedSize + length (script w) + 1) sock
                expectedSize tmout_ms (readBuffer sock) None 0 w Hin) as S.
  pose proof (read_binary_loop_within (expectedSize + length (script w) + 1) sock
                expectedSize tmout_ms (readBuffer sock) None 0 w Hin Hfit) as B.
  destruct (read_binary_loop _ sock expectedSize tmout_ms (readBuffer sock) None 0 w)
    as [[[rb' out'] e] w'].
  destruct S as (_ & Hp & (log & T & _ & R) & _ & Hfuel).
  destruct B as [Hroom Hshort].
  rewrite (since_app _ _ _ T). cbn zeta. simpl in R, Hfuel |- *.
  assert (length (pending rb') = position rb') as Hpl.
  { unfold pending. rewrite length_take. lia. }
  destruct (e =? 0)%Z eqn:E.
  - apply Z.eqb_eq in E. specialize (Hfuel ltac:(lia) E).
    assert (pending rb' = []) as Hnil by (apply length_zero_iff_nil; lia).
    rewrite Hnil, app_nil_r in R.
    split; [lia|]. split; [|done]. intros _.
    rewrite R. split; [done|]. split; [lia|]. destruct out'; simpl in *; lia.
  - apply Z.eqb_neq in E. destruct (Hshort eq_refl E) as [Hlt Hz].
    assert (pending rb' = []) as Hnil by (apply length_zero_iff_nil; lia).
    rewrite Hnil, app_nil_r in R.
    split; [done|]. split; [done|]. intros _. by rewrite R.
Qed.

(** ** Connect, then disconnect *)

Lemma syscall_answer (c : Call) (w : World) :
  ∃ w', syscall c w = (next_answer w, w') ∧ trace w' = (c, next_answer w) :: trace w.
Proof. eexists. split; reflexivity. Qed.

Opaque syscall.

(** Turn the boolean tests in the context into propositions. *)
Ltac tests_to_prop :=
  repeat match goal with
         | H : (_ && _) = true |- _ => apply andb_prop in H as [? ?]
         | H : (_ && _) = false |- _ => apply andb_false_iff in H
         | H : (_ || _) = true |- _ => apply orb_true_iff in H
         | H : (_ || _) = false |- _ => apply orb_false_elim in H as [? ?]
         | H : negb _ = true |- _ => apply negb_true_iff in H
         | H : negb _ = false |- _ => apply negb_false_iff in H
         | H : (_ =? _)%Z = true |- _ => apply Z.eqb_eq in H
         | H : (_ =? _)%Z = false |- _ => apply Z.eqb_neq in H
         | H : (_ <? _)%Z = true |- _ => apply Z.ltb_lt in H
         | H : (_ <? _)%Z = false |- _ => apply Z.ltb_ge in H
         end.

Ltac split_cases :=
  repeat match goal with H : _ ∨ _ |- _ => destruct H end.

(** X10. A connect followed by a disconnect leaves no descriptor open,
    whatever the system calls answer.  The two calls together close the
    descriptor [socket] returned exactly once (and make no [close] when
    [socket] returned [INVALID_SOCKET]); after a connect that failed, the
    disconnect makes no system call. *)
Theorem connect_disconnect_releases (sock : SysSocket) (url : URL) (tmout_ms errp : Z)
    (w : World) :
  let '(ok, sock1, e, w1) := socket_connect sock url tmout_ms errp w in
  let '(sock2, w2) := socket_disconnect sock1 w1 in
  (∀ fd, descriptor fd (since w w2) = None) ∧
  closes (since w w2) = (if (ret (next_answer w) =? INVALID_SOCKET)%Z then 0 else 1) ∧
  (ok = false → w2 = w1).
Proof.
  pose proof ETIMEDOUT_nonzero as Htm.
  unfold socket_connect, socket_disconnect, socket_set_nonblock, socket_select,
    socket_get_error, INVALID_SOCKET.
  destruct (syscall_answer sys_socket w) as (w0 & -> & T0).
  generalize dependent (next_answer w). intros a0 T0.
  repeat first
    [ progress (cbn beta iota; cbn [sockfd negb])
    | progress change (-1 =? -1)%Z with true
    | match goal with
      | |- context [syscall ?c ?w] =>
          let a := fresh "a" in
          let w' := fresh "w" in
          let T := fresh "T" in
          destruct (syscall_inv c w) as (a & w' & -> & T & _)
      end
    | match goal with
      | |- context [if ?b then _ else _] => destruct b eqn:?
      end ].
  all: tests_to_prop; split_cases.
  all: try discriminate; try lia.
  all: match goal with
       | |- context [since ?w ?w'] =>
           let L := fresh "L" in
           eassert (since w w' = _) as L
             by (apply since_app;
                 repeat match goal with T : trace _ = _ :: _ |- _ => rewrite T end;
                 repeat eapply log_cons; apply log_nil);
           rewrite L; clear L
       end.
  all: split; [|split; [reflexivity|]].
  all: first
    [ (* after a failed connect the disconnect has made no call *)
      let Hf := fresh in
      intros Hf; first [reflexivity | exfalso; tests_to_prop; first [lia | discriminate]]
    | (* no descriptor is open *)
      let fd := fresh "fd" in
      intros fd;
      first [ apply kernel_step_closed; intros _; right; lia
            | rewrite !descriptor_cons;
              change (descriptor fd []) with (@None Descriptor);
              match goal with
              | |- context [sys_close ?fd0] => destruct (Z.eq_dec fd fd0) as [->|?]
              end;
              [ apply kernel_step_close
              | rewrite !kernel_step_closed
                  by (intros ?; first [discriminate | left; congruence]);
                reflexivity ] ] ].
Qed.

Transparent syscall.

(** ** The error a connect reports *)

Opaque syscall.

(** X18. The error [socket_connect] reports is the one of the last call it
    made before closing the descriptor.  With system calls that honour the
    POSIX contract, [*errp] is what the last exchange stands for: [errno]
    after a call that failed, [ETIMEDOUT] after a [select] that returned 0,
    the pending socket error after [getsockopt(SO_ERROR)], and 0 after a
    [connect] that succeeded.  A final [close] is there exactly when
    [*errp] is not 0 and [socket] had returned a descriptor. *)
Theorem socket_connect_error_code (sock : SysSocket) (url : URL) (tmout_ms errp : Z)
    (w : World) :
  let '(ok, sock', e, w') := socket_connect sock url tmout_ms errp w in
  forallb posix (since w w') = true →
  match since w w' with
  | (sys_close fd, _) :: x :: _ => e = reported x ∧ e ≠ 0%Z ∧ fd ≠ INVALID_SOCKET
  | x :: _ => e = reported x ∧ (e = 0%Z ∨ x.1 = sys_socket)
  | [] => False
  end.
Proof.
  pose proof ETIMEDOUT_nonzero as Htm.
  unfold socket_connect, socket_set_nonblock, socket_select, socket_get_error, INVALID_SOCKET.
  repeat first
    [ match goal with
      | |- context [syscall ?c ?w] =>
          let a := fresh "a" in
          let w' := fresh "w" in
          let T := fresh "T" in
          let N := fresh "N" in
          destruct (syscall_inv c w) as (a & w' & -> & T & N & _)
      end
    | match goal with
      | |- context [if ?b then _ else _] => destruct b eqn:?
      end ];
    cbn beta iota.
  all: tests_to_prop.
  all: match goal with
       | |- context [since ?w ?w'] =>
           let L := fresh "L" in
           eassert (since w w' = _) as L
             by (apply since_app;
                 repeat match goal with T : trace _ = _ :: _ |- _ => rewrite T end;
                 repeat eapply log_cons; apply log_nil);
           rewrite !L; clear L
       end.
  all: intros P; cbn [forallb] in P;
       repeat match type of P with
              | (posix _ && _) = true =>
                  let P1 := fresh "P" in
                  apply andb_prop in P as [P1 P];
                  apply posix_spec in P1; cbn beta iota in P1
              end.
  all: cbn beta iota; unfold reported; cbn [fst].
  all: repeat match goal with
              | |- context [if ?b then _ else _] => destruct b eqn:?
              end; tests_to_prop.
  all: try lia.
  all: split; [lia|by right].
Qed.

Transparent syscall.

(** ** Connect in progress *)

(** X11. A connect that is in progress ends as the wait for writability
    ends.  When [socket] returns a descriptor, [fcntl] succeeds and
    [connect] fails with [EINPROGRESS] or [EAGAIN]: if [select] then times
    out, [socket_connect] fails with [ETIMEDOUT]; if [select] reports the
    descriptor writable, [socket_connect] reports the pending error that
    [getsockopt(SO_ERROR)] reads, succeeding when there is none.  When it
    fails it has closed the descriptor and the handle holds
    [INVALID_SOCKET]; when it succeeds it has closed nothing and the handle
    holds the descriptor. *)
Theorem socket_connect_in_progress (sock : SysSocket) (url : URL) (tmout_ms errp : Z)
    (w : World) (fd c : Z) (sel g : Answer) (rest : list Answer) :
  fd ≠ INVALID_SOCKET →
  c = EINPROGRESS ∨ c = EAGAIN →
  script w = returns fd :: returns 0 :: fails c :: sel :: g :: rest →
  let '(ok, sock', e, w') := socket_connect sock url tmout_ms errp w in
  (ret sel = 0%Z →
   ok = false ∧ e = ETIMEDOUT ∧ sockfd sock' = INVALID_SOCKET ∧
   closes (since w w') = 1) ∧
  (ret sel = 1%Z → ret g = 0%Z → optval g ≠ 0%Z →
   ok = false ∧ e = optval g ∧ sockfd sock' = INVALID_SOCKET ∧
   closes (since w w') = 1) ∧
  (ret sel = 1%Z → ret g = 0%Z → optval g = 0%Z →
   ok = true ∧ e = 0%Z ∧ sockfd sock' = fd ∧ closes (since w w') = 0).
Proof.
  pose proof ETIMEDOUT_nonzero as Htm.
  intros Hfd Hc Hscript.
  unfold socket_connect, socket_set_nonblock, socket_select, socket_get_error.
  rewrite syscall_unfold. unfold next_answer. rewrite Hscript. simpl.
  unfold next_answer. simpl.
  replace (fd =? INVALID_SOCKET)%Z with false by (symmetry; by apply Z.eqb_neq).
  replace ((c =? EINPROGRESS)%Z || (c =? EAGAIN)%Z) with true
    by (symmetry; apply orb_true_iff; destruct Hc as [->| ->]; rewrite Z.eqb_refl; auto).
  clear Hc.
  destruct (ret sel =? 1)%Z eqn:E1; [|destruct (ret sel =? 0)%Z eqn:E0];
    [destruct (ret g =? 0)%Z eqn:Eg; [destruct (optval g =? 0)%Z eqn:Eo|]| |];
    tests_to_prop; simpl;
    rewrite ?Z.eqb_refl, ?Eo, ?(proj2 (Z.eqb_neq _ _) Htm); simpl.
  all: try match goal with |- context [if ?b then _ else _] => destruct b end.
  all: cbn beta iota.
  all: (split; [|split]); intros; try lia; try congruence.
  all: split; [done|]; split; [done|]; split; [done|].
  all: erewrite since_app by (simpl; repeat eapply log_cons; apply log_nil).
  all: reflexivity.
Qed.

(** ** How many calls a write makes *)

(** Every turn of the write loop that goes on has sent at least one byte,
    so the loop makes no more calls than there are bytes left. *)
Lemma write_loop_calls (fuel : nat) (fd : Z) (p : list byte) (len ofs : nat)
    (errp : Z) (w : World) :
  let '(ok, e, w') := write_loop fuel fd p len ofs errp w in
  ∃ log, trace w' = log ++ trace w ∧ length log ≤ len - ofs ∧
         length log ≤ fuel ∧ (log = [] → w' = w ∧ ok = true ∧ e = errp).
Proof.
  revert ofs w. induction fuel as [|fuel IH]; intros ofs w; cbn [write_loop].
  { destruct (len <=? ofs); exists []; (split; [done|]); simpl; (split; [lia|done]). }
  destruct (len <=? ofs) eqn:E.
  { exists []. split; [done|]. simpl. split; [lia|]. split; [lia|done]. }
  apply Nat.leb_gt in E.
  unfold send. rewrite syscall_unfold.
  set (buf := take (len - ofs) (drop ofs p)).
  set (a := next_answer w).
  set (w1 := {| script := tail (script w);
                errno := if (ret a <? 0)%Z then err a else errno w;
                trace := (sys_send fd buf, a) :: trace w |}).
  destruct (send_rc buf a <=? 0)%Z eqn:En.
  - exists [(sys_send fd buf, a)]. split; [done|]. simpl. split; [lia|]. split; [lia|done].
  - apply Z.leb_gt in En.
    specialize (IH (ofs + Z.to_nat (send_rc buf a)) w1).
    destruct (write_loop fuel fd p len (ofs + Z.to_nat (send_rc buf a)) errp w1)
      as [[ok e] w'].
    destruct IH as (log & T & Hlen & Hfuel & _).
    exists (log ++ [(sys_send fd buf, a)]).
    rewrite length_app. simpl.
    split; [by rewrite T, <- app_assoc|]. split; [lia|]. split; [lia|].
    intros Hnil. by destruct log.
Qed.

(** X13. [socket_write] ends after at most [len] system calls, whatever
    the [send] calls answer, and with [len] 0 it makes none: it returns true
    with [*errp] 0 and the world as it was. *)
Theorem socket_write_calls (sock : SysSocket) (p : list byte) (len : nat)
    (errp : Z) (w : World) :
  let '(ok, e, w') := socket_write sock p len errp w in
  length (since w w') ≤ len ∧
  (len = 0 → ok = true ∧ e = 0%Z ∧ w' = w).
Proof.
  unfold socket_write.
  pose proof (write_loop_calls len (sockfd sock) p len 0 0 w) as C.
  destruct (write_loop len (sockfd sock) p len 0 0 w) as [[ok e] w'].
  destruct C as (log & T & Hlen & _ & Hnil).
  rewrite (since_app _ _ _ T). split; [lia|].
  intros ->. destruct log; [|simpl in Hlen; lia].
  by destruct (Hnil eq_refl) as (-> & -> & ->).
Qed.

(** ** What a raw read stores *)

(** A [recv] that returns a count has delivered that many bytes, no more
    than asked for; one that does not has delivered none. *)
Lemma recv_rc_delivered (nbyte : nat) (a : Answer) :
  length (delivered nbyte a) ≤ nbyte ∧
  ((0 < recv_rc nbyte a)%Z → Z.to_nat (recv_rc nbyte a) = length (delivered nbyte a)) ∧
  ((recv_rc nbyte a ≤ 0)%Z → delivered nbyte a = []).
Proof.
  unfold recv_rc. split; [unfold delivered; rewrite length_take; lia|].
  destruct (delivered nbyte a) as [|b bs]; simpl; split; (lia || done).
Qed.

Opaque syscall.

(** X14. [socket_read] stores what it receives at the front of the buffer
    and nothing else: the count [n] it returns is at most [nbyte], the first
    [n] bytes of the buffer are the bytes received, the bytes after them are
    as they were, and a buffer of at least [nbyte] bytes keeps its length.
    It makes at most three system calls and sends nothing. *)
Theorem socket_read_stores (sock : SysSocket) (buf : list byte) (nbyte : nat)
    (tmout_ms errp : Z) (w : World) :
  let '(n, buf', e, w') := socket_read sock buf nbyte tmout_ms errp w in
  n ≤ nbyte ∧
  take n buf' = received (since w w') ∧
  drop n buf' = drop n buf ∧
  (nbyte ≤ length buf → length buf' = length buf) ∧
  length (since w w') ≤ 3 ∧ sent (since w w') = [].
Proof.
  unfold socket_read, socket_select, socket_get_error, recv.
  repeat first
    [ match goal with
      | |- context [syscall ?c ?w] =>
          let a := fresh "a" in
          let w' := fresh "w" in
          let T := fresh "T" in
          destruct (syscall_inv c w) as (a & w' & -> & T & _)
      end
    | match goal with
      | |- context [if ?b then _ else _] => destruct b eqn:?
      end ];
    cbn beta iota.
  all: tests_to_prop; split_cases.
  all: match goal with
       | |- context [since ?w ?w'] =>
           let L := fresh "L" in
           eassert (since w w' = _) as L
             by (apply since_app;
                 repeat match goal with T : trace _ = _ :: _ |- _ => rewrite T end;
                 repeat eapply log_cons; apply log_nil);
           rewrite !L; clear L
       end.
  all: cbn [received sent length app].
  all: try match goal with
           | |- context [delivered ?n ?a] =>
               destruct (recv_rc_delivered n a) as (Hle & Hpos & Hnone)
           end.
  all: try rewrite Hpos by lia; try rewrite Hnone by lia.
  all: rewrite ?take_app_length, ?drop_app_length, ?take_0.
  all: repeat split; try done; try lia.
  all: intros Hn; rewrite length_app, length_drop; lia.
Qed.

Transparent syscall.

(** ** A handle after initialisation *)

(** X12. [sys_socket_init] makes a handle fit for use whatever its memory
    held.  The handle holds [INVALID_SOCKET], so [socket_disconnect] makes
    no system call on it; and once a descriptor is stored in it, what a text
    read or a binary read that reports no error returns and leaves pending
    is exactly what was received during the call: nothing that was in the
    buffer before the initialisation comes out of it. *)
Theorem sys_socket_init_fresh (sock : SysSocket) (fd : Z) (terminator : list byte)
    (expectedSize : nat) (tmout_ms errp : Z) (w : World) :
  let sock0 := sys_socket_init sock in
  sockfd sock0 = INVALID_SOCKET ∧
  socket_disconnect sock0 w = (sock0, w) ∧
  (let '(out, sock', e, w') :=
     socket_read_text (with_fd fd sock0) terminator tmout_ms errp w in
   e = 0%Z → default [] out ++ pending (readBuffer sock') = received (since w w')) ∧
  (let '(out, actualSize, sock', e, w') :=
     socket_read_binary (with_fd fd sock0) expectedSize tmout_ms errp w in
   e = 0%Z → default [] out ++ pending (readBuffer sock') = received (since w w')).
Proof.
  cbn zeta. split; [done|]. split; [done|].
  set (rb0 := readBuffer (with_fd fd (sys_socket_init sock))).
  assert (position rb0 ≤ length (data rb0)) as Hin by (simpl; lia).
  assert (pending rb0 = []) as Hnil by done.
  split.
  - unfold socket_read_text. fold rb0.
    pose proof (read_text_loop_spec (length (script w) + 2)
                  (with_fd fd (sys_socket_init sock)) terminator tmout_ms
                  rb0 None errp w Hin) as S.
    destruct (read_text_loop _ _ terminator tmout_ms rb0 None errp w)
      as [[[rb' out'] e] w'].
    destruct S as (_ & _ & log & T & _ & R). rewrite Hnil in R. simpl in R |- *.
    intros ->. simpl. by rewrite (since_app _ _ _ T).
  - unfold socket_read_binary. fold rb0.
    pose proof (read_binary_loop_spec (expectedSize + length (script w) + 1)
                  (with_fd fd (sys_socket_init sock)) expectedSize tmout_ms
                  rb0 None 0 w Hin) as S.
    destruct (read_binary_loop _ _ expectedSize tmout_ms rb0 None 0 w)
      as [[[rb' out'] e] w'].
    destruct S as (_ & _ & (log & T & _ & R) & _). rewrite Hnil in R. simpl in R |- *.
    intros ->. simpl. by rewrite (since_app _ _ _ T).
Qed.

(** ** A line, then a frame *)

(** X15. A text read followed by a binary read hands over the stream in
    order, with no byte lost or repeated.  On an empty buffer, when the
    stream arrives as chunks [cs] without the terminator, then a chunk that
    holds the end of the line, the terminator and the first bytes [post] of
    the frame, then the chunks [bs] with the rest of the frame:
    [socket_read_text] returns the line, and [socket_read_binary] for the
    size of [post] and [bs] together returns [post] followed by [bs], both
    with [*errp] 0, and the buffer is empty again. *)
Theorem read_text_then_binary (sock : SysSocket) (terminator : list byte)
    (expectedSize : nat) (tmout_ms tmout_ms' errp : Z) (w : World)
    (cs bs : list (list byte)) (pre post : list byte) (rest : list Answer) :
  position (readBuffer sock) = 0 →
  terminator ≠ [] → x00 ∉ terminator →
  Forall (λ b, fits (length (data (readBuffer sock))) b ∧ absent terminator b) cs →
  fits (length (data (readBuffer sock))) (pre ++ terminator ++ post) →
  first_at terminator pre →
  Forall (λ b, b ≠ [] ∧ length b ≤ length (data (readBuffer sock))) bs →
  0 < expectedSize →
  length post + length (concat bs) = expectedSize →
  script w = chunks (cs ++ [pre ++ terminator ++ post]) ++ chunks bs ++ rest →
  let '(line, sock1, e1, w1) := socket_read_text sock terminator tmout_ms errp w in
  let '(frame, actualSize, sock2, e2, w2) :=
    socket_read_binary sock1 expectedSize tmout_ms' e1 w1 in
  line = Some (concat cs ++ pre ++ terminator) ∧ e1 = 0%Z ∧
  frame = Some (post ++ concat bs) ∧ actualSize = expectedSize ∧ e2 = 0%Z ∧
  position (readBuffer sock2) = 0 ∧ script w2 = rest.
Proof.
  intros Hpos Hne Hterm Hcs Hlast Hfirst Hbs Hsize Hsum Hscript.
  unfold socket_read_text.
  assert (length cs < length (script w) + 2) as Hfuel.
  { rewrite Hscript, length_app. unfold chunks at 1. rewrite bind_app, length_app.
    pose proof (chunks_length cs). unfold chunks in *. lia. }
  pose proof (read_text_loop_spec (length (script w) + 2) sock terminator tmout_ms
                (readBuffer sock) None errp w ltac:(lia)) as S.
  destruct (read_text_loop_unsplit cs _ sock terminator tmout_ms (readBuffer sock) None
              errp w pre post (chunks bs ++ rest) Hpos Hfuel Hne Hterm Hcs Hlast Hfirst
              Hscript)
    as (rb1 & w1 & Hloop & Hp1 & Hw1 & Hl1).
  rewrite Hloop in S |- *. destruct S as (_ & Hin1 & _).
  cbn beta iota zeta. cbn [Z.eqb].
  unfold socket_read_binary. cbn [readBuffer sockfd].
  assert (length (pending rb1) = position rb1) as Hpl.
  { unfold pending. rewrite length_take. lia. }
  destruct (read_binary_loop_stream bs (expectedSize + length (script w1) + 1)
              {| sockfd := sockfd sock; readBuffer := rb1 |}
              expectedSize tmout_ms' rb1 0%Z w1 rest Hin1)
    as (fuel' & rb2 & out2 & w2 & -> & _ & Hout & Hp2 & _ & Hw2); try done.
  { pose proof (chunks_length bs). rewrite Hw1, length_app. lia. }
  { by rewrite Hl1. }
  { rewrite <- Hpl, Hp1. lia. }
  assert (length (default [] out2) = expectedSize) as Hall.
  { rewrite Hout, length_app, Hp1. lia. }
  rewrite read_binary_loop_done by lia.
  replace (match bs with [] => 0%Z | _ => 0%Z end) with 0%Z by (by destruct bs).
  destruct out2 as [frame|]; simpl in Hout, Hall; [|lia]. subst frame.
  simpl. by rewrite Hall, Hp1.
Qed.

(** ** Two lines in one chunk *)

(** X17. Lines that arrive together are handed over one per call.  On an
    empty buffer, when the stream arrives as chunks [cs] without the
    terminator and then a chunk that holds the end of a first line, a whole
    second line and some more, a first [socket_read_text] returns the first
    line and a second one returns the second line from the buffer, without
    a system call, both with [*errp] 0; what followed the second line is
    left pending. *)
Theorem read_text_twice (sock : SysSocket) (terminator : list byte)
    (tmout_ms tmout_ms' errp : Z) (w : World)
    (cs : list (list byte)) (pre1 pre2 post : list byte) (rest : list Answer) :
  position (readBuffer sock) = 0 →
  terminator ≠ [] → x00 ∉ terminator →
  Forall (λ b, fits (length (data (readBuffer sock))) b ∧ absent terminator b) cs →
  fits (length (data (readBuffer sock)))
       (pre1 ++ terminator ++ pre2 ++ terminator ++ post) →
  first_at terminator pre1 → first_at terminator pre2 →
  script w = chunks (cs ++ [pre1 ++ terminator ++ pre2 ++ terminator ++ post]) ++ rest →
  let '(line1, sock1, e1, w1) := socket_read_text sock terminator tmout_ms errp w in
  let '(line2, sock2, e2, w2) := socket_read_text sock1 terminator tmout_ms' e1 w1 in
  line1 = Some (concat cs ++ pre1 ++ terminator) ∧ e1 = 0%Z ∧
  line2 = Some (pre2 ++ terminator) ∧ e2 = 0%Z ∧
  w2 = w1 ∧ script w1 = rest ∧ pending (readBuffer sock2) = post.
Proof.
  intros Hpos Hne Hterm Hcs Hlast Hfirst1 Hfirst2 Hscript.
  unfold socket_read_text at 1.
  assert (length cs < length (script w) + 2) as Hfuel.
  { rewrite Hscript, length_app. unfold chunks at 1. rewrite bind_app, length_app.
    pose proof (chunks_length cs). unfold chunks in *. lia. }
  pose proof (read_text_loop_spec (length (script w) + 2) sock terminator tmout_ms
                (readBuffer sock) None errp w ltac:(lia)) as S.
  destruct (read_text_loop_unsplit cs _ sock terminator tmout_ms (readBuffer sock) None
              errp w pre1 (pre2 ++ terminator ++ post) rest Hpos Hfuel Hne Hterm Hcs
              Hlast Hfirst1 Hscript)
    as (rb1 & w1 & Hloop & Hp1 & Hw1 & Hl1).
  rewrite Hloop in S |- *. destruct S as (_ & Hin1 & _).
  cbn beta iota zeta. cbn [Z.eqb].
  assert (x00 ∉ pending rb1) as Hnul.
  { rewrite Hp1. destruct Hlast as (_ & _ & Hnul). intros Hx. apply Hnul.
    rewrite !elem_of_app in *. tauto. }
  assert (position rb1 ≠ 0) as Hpos1.
  { intros Hz. unfold pending in Hp1. rewrite Hz, take_0 in Hp1.
    destruct pre2, terminator; done. }
  unfold socket_read_text. rewrite Nat.add_succ_r. cbn [read_text_loop readBuffer sockfd].
  apply Nat.eqb_neq in Hpos1. rewrite Hpos1. cbn [andb].
  destruct (scan_hit rb1 terminator pre2 post None Hin1 Hp1 Hnul Hterm Hne Hfirst2)
    as (rb2 & -> & Hp2 & Hl2).
  simpl. done.
Qed.

(** ** The calls a read makes *)

Lemma read_call_mono (fd tmout_ms : Z) (n m : nat) (x : Call * Answer) :
  n ≤ m → read_call fd tmout_ms n x = true → read_call fd tmout_ms m x = true.
Proof.
  intros Hle. unfold read_call. destruct x.1; try done.
  intros [-> Hn]%andb_prop. apply Nat.leb_le in Hn. simpl.
  apply Nat.leb_le. lia.
Qed.

Lemma read_calls_mono (fd tmout_ms : Z) (n m : nat) (log : list (Call * Answer)) :
  n ≤ m → forallb (read_call fd tmout_ms n) log = true →
  forallb (read_call fd tmout_ms m) log = true.
Proof.
  intros Hle. induction log as [|x log IH]; [done|]. simpl.
  intros [Hx Hlog]%andb_prop. by rewrite (read_call_mono fd tmout_ms n m x Hle Hx), IH.
Qed.

Opaque syscall.

(** The calls of one [socket_read]. *)
Lemma socket_read_calls (sock : SysSocket) (buf : list byte) (nbyte : nat)
    (tmout_ms errp : Z) (w : World) :
  let '(n, buf', e, w') := socket_read sock buf nbyte tmout_ms errp w in
  ∃ log, trace w' = log ++ trace w ∧
         forallb (read_call (sockfd sock) tmout_ms nbyte) log = true.
Proof.
  unfold socket_read, socket_select, socket_get_error, recv.
  repeat first
    [ match goal with
      | |- context [syscall ?c ?w] =>
          let a := fresh "a" in
          let w' := fresh "w" in
          let T := fresh "T" in
          destruct (syscall_inv c w) as (a & w' & -> & T & _)
      end
    | match goal with
      | |- context [if ?b then _ else _] => destruct b eqn:?
      end ];
    cbn beta iota.
  all: eexists; split;
    [ repeat match goal with T : trace _ = _ :: _ |- _ => rewrite T end;
      repeat eapply log_cons; apply log_nil |].
  all: unfold read_call; simpl; by rewrite ?Z.eqb_refl, ?Nat.leb_refl.
Qed.

Transparent syscall.

(** The calls of the text loop. *)
Lemma read_text_loop_calls (fuel : nat) (sock : SysSocket) (terminator : list byte)
    (tmout_ms : Z) (rb : SockReadBuffer) (out : option (list byte)) (errp : Z) (w : World) :
  in_bounds rb →
  let '(rb', out', e, w') :=
    read_text_loop fuel sock terminator tmout_ms rb out errp w in
  ∃ log, trace w' = log ++ trace w ∧
         forallb (read_call (sockfd sock) tmout_ms (length (data rb))) log = true.
Proof.
  unfold in_bounds. revert rb out errp w.
  induction fuel as [|fuel IH]; intros rb out errp w Hin; cbn [read_text_loop].
  { by exists []. }
  assert (∀ rb1 e1 w1 log1,
    length (data rb1) = length (data rb) → position rb1 ≤ length (data rb1) →
    trace w1 = log1 ++ trace w →
    forallb (read_call (sockfd sock) tmout_ms (length (data rb))) log1 = true →
    let '(rb', out', e, w') :=
      let '(rb2, out2, eos) := scan rb1 terminator out in
      match eos with
      | None => read_text_loop fuel sock terminator tmout_ms rb2 out2 e1 w1
      | Some _ => (rb2, out2, e1, w1)
      end in
    ∃ log, trace w' = log ++ trace w ∧
           forallb (read_call (sockfd sock) tmout_ms (length (data rb))) log = true) as Hturn.
  { intros rb1 e1 w1 log1 Hl1 Hp1 T1 C1.
    pose proof (scan_spec rb1 terminator out Hp1) as Sc.
    destruct (scan rb1 terminator out) as [[rb2 out2] [ofs|]].
    - by exists log1.
    - destruct Sc as (Hl2 & Hp2 & _).
      specialize (IH rb2 out2 e1 w1 ltac:(lia)).
      destruct (read_text_loop fuel sock terminator tmout_ms rb2 out2 e1 w1)
        as [[[rb' out'] e'] w'].
      destruct IH as (log2 & T2 & C2). exists (log2 ++ log1).
      split; [by rewrite T2, T1, app_assoc|].
      rewrite forallb_app, C1, andb_true_r. by rewrite <- Hl1, <- Hl2. }
  destruct (position rb =? 0) eqn:Ez; cbn [andb].
  - apply Nat.eqb_eq in Ez.
    pose proof (refill_spec sock rb (length (data rb)) tmout_ms errp w Ez ltac:(lia)) as R.
    pose proof (socket_read_calls sock (data rb) (length (data rb)) tmout_ms errp w) as C.
    destruct (socket_read sock (data rb) (length (data rb)) tmout_ms errp w)
      as [[[n buf] e1] w1].
    cbn zeta in R. destruct R as (Hl1 & Hp1 & _). simpl in Hl1, Hp1.
    destruct C as (log1 & T1 & C1).
    destruct (negb (e1 =? 0)%Z); [by exists log1|].
    apply (Hturn {| position := n; data := buf; filler := filler rb |} e1 w1 log1);
      simpl; (done || lia).
  - apply (Hturn rb errp w []); done.
Qed.

(** The calls of the binary loop. *)
Lemma read_binary_loop_calls (fuel : nat) (sock : SysSocket) (expectedSize : nat)
    (tmout_ms : Z) (rb : SockReadBuffer) (out : option (list byte)) (errp : Z) (w : World) :
  in_bounds rb →
  let '(rb', out', e, w') :=
    read_binary_loop fuel sock expectedSize tmout_ms rb out errp w in
  ∃ log, trace w' = log ++ trace w ∧
         forallb (read_call (sockfd sock) tmout_ms (length (data rb))) log = true.
Proof.
  unfold in_bounds. revert rb out errp w.
  induction fuel as [|fuel IH]; intros rb out errp w Hin; cbn [read_binary_loop].
  { destruct (expectedSize <=? _); by exists []. }
  destruct (expectedSize <=? length (default [] out)); [by exists []|].
  destruct (position rb =? 0) eqn:Ez; cbn [andb].
  - apply Nat.eqb_eq in Ez.
    set (nbytesToRead := length (data rb) `min` (expectedSize - length (default [] out))).
    pose proof (refill_spec sock rb nbytesToRead tmout_ms errp w Ez ltac:(lia)) as R.
    pose proof (socket_read_calls sock (data rb) nbytesToRead tmout_ms errp w) as C.
    destruct (socket_read sock (data rb) nbytesToRead tmout_ms errp w)
      as [[[n buf] e1] w1].
    cbn zeta in R. destruct R as (Hl1 & Hp1 & _). simpl in Hl1, Hp1.
    destruct C as (log1 & T1 & C1).
    apply (read_calls_mono _ _ _ (length (data rb))) in C1; [|lia].
    destruct (negb (e1 =? 0)%Z); [by exists log1|].
    specialize (IH {| position := 0; data := buf; filler := filler rb |}
                   (append out (take n buf)) e1 w1 ltac:(simpl; lia)).
    cbn [position data filler].
    destruct (read_binary_loop fuel sock expectedSize tmout_ms _ _ e1 w1)
      as [[[rb' out'] e'] w'].
    destruct IH as (log2 & T2 & C2). exists (log2 ++ log1).
    split; [by rewrite T2, T1, app_assoc|].
    rewrite forallb_app, C1, andb_true_r. simpl in C2. by rewrite <- Hl1.
  - specialize (IH {| position := 0; data := data rb; filler := filler rb |}
                   (append out (take (position rb) (data rb))) errp w ltac:(simpl; lia)).
    destruct (read_binary_loop fuel sock expectedSize tmout_ms _ _ errp w)
      as [[[rb' out'] e'] w'].
    done.
Qed.

(** X16. The two reads make no call but reads on the handle's descriptor,
    and never ask [recv] for more than the read buffer holds: every system
    call of [socket_read_text] and of [socket_read_binary] is a [select] for
    readability, a [getsockopt(SO_ERROR)] or a [recv] on [sockfd]; every
    [recv] asks for at most [sizeof(rb->data)] bytes, and every [select] is
    given the whole of [tmout_ms], which so bounds each wait and not the
    call. *)
Theorem reads_stay_in_buffer (sock : SysSocket) (terminator : list byte)
    (expectedSize : nat) (tmout_ms errp : Z) (w : World) :
  in_bounds (readBuffer sock) →
  (let '(out, sock', e, w') := socket_read_text sock terminator tmout_ms errp w in
   forallb (read_call (sockfd sock) tmout_ms (length (data (readBuffer sock)))) (since w w')
   = true) ∧
  (let '(out, actualSize, sock', e, w') :=
     socket_read_binary sock expectedSize tmout_ms errp w in
   forallb (read_call (sockfd sock) tmout_ms (length (data (readBuffer sock)))) (since w w')
   = true).
Proof.
  intros Hin. split.
  - unfold socket_read_text.
    pose proof (read_text_loop_calls (length (script w) + 2) sock terminator tmout_ms
                  (readBuffer sock) None errp w Hin) as C.
    destruct (read_text_loop _ sock terminator tmout_ms (readBuffer sock) None errp w)
      as [[[rb' out'] e] w'].
    destruct C as (log & T & C). by rewrite (since_app _ _ _ T).
  - unfold socket_read_binary.
    pose proof (read_binary_loop_calls (expectedSize + length (script w) + 1) sock
                  expectedSize tmout_ms (readBuffer sock) None 0 w Hin) as C.
    destruct (read_binary_loop _ sock expectedSize tmout_ms (readBuffer sock) None 0 w)
      as [[[rb' out'] e] w'].
    destruct C as (log & T & C). by rewrite (since_app _ _ _ T).
Qed.

End Coverage.

(** ** The assumptions are met

    The theorems above that carry assumptions, at inputs that meet them. *)

(** A connect that is in progress, then writable with no pending error. *)
Lemma socket_connect_outcome_witness :
  let w := boot [returns 3; returns 0; fails 115; ready; no_error] in
  let '(ok, sock', e, w') := socket_connect (fresh 8) localhost 50 0 w in
  forallb posix (since w w') = true ∧
  (readBuffer sock' = readBuffer (fresh 8) ∧
   ok = (e =? 0)%Z ∧
   ((e = 0%Z ∧ sockfd sock' ≠ INVALID_SOCKET ∧
     descriptor (sockfd sock') (since w w')
     = Some {| nonblock := true; conn := Established |})
    ∨
    (e ≠ 0%Z ∧ sockfd sock' = INVALID_SOCKET ∧
     ∀ fd, descriptor fd (since w w') = None))).
Proof.
  pose proof (socket_connect_outcome (fresh 8) localhost 50 0
                (boot [returns 3; returns 0; fails 115; ready; no_error])) as Hthm.
  vm_compute in Hthm. vm_compute.
  split; [reflexivity|exact (Hthm eq_refl)].
Defined.

(** A wait of 1.5 s that finds the descriptor writable. *)
Lemma socket_select_outcome_witness :
  let '(ok, e, w') := socket_select 3 SEL_WRITE 1500 0 (boot [ready; no_error]) in
  let tv_sec := (1500 ÷ 1000)%Z in
  let tv_usec := (Z.rem 1500 1000 * 1000)%Z in
  let a := next_answer (boot [ready; no_error]) in
  let wait := (sys_select (3 + 1) SEL_WRITE 3 tv_sec tv_usec, a) in
  (tv_sec * 1000000 + tv_usec = 1500 * 1000)%Z ∧
  ((0 ≤ 1500)%Z →
   tv_sec = (1500 / 1000)%Z ∧ tv_usec = (1500 `mod` 1000 * 1000)%Z ∧
   (0 ≤ tv_usec < 1000000)%Z) ∧
  ok = (e =? 0)%Z ∧
  if (ret a =? 1)%Z then
    ∃ g, since (boot [ready; no_error]) w' = [(sys_getsockopt_so_error 3, g); wait] ∧
         e = if (ret g =? 0)%Z then optval g else 0%Z
  else
    since (boot [ready; no_error]) w' = [wait] ∧
    if (ret a =? 0)%Z then e = ETIMEDOUT
    else e = errno w' ∧ ((ret a < 0)%Z → e = err a).
Proof.
  exact (socket_select_outcome 3 SEL_WRITE 1500 0 (boot [ready; no_error])).
Defined.

(** A read that finds the peer gone. *)
Lemma socket_read_outcome_witness :
  let sock := with_fd 3 (fresh 8) in
  let w := boot [ready; no_error; returns 0] in
  let '(n, buf', e, w') := socket_read sock (data (readBuffer sock)) 8 50 0 w in
  forallb posix (since w w') = true ∧ n = 0 ∧ e = PEER_CLOSED ∧ e ≠ 0%Z.
Proof.
  pose proof (socket_read_outcome (with_fd 3 (fresh 8)) (replicate 8 x00) 8 50 0
                (boot [ready; no_error; returns 0])) as Hthm.
  vm_compute in Hthm. vm_compute.
  destruct Hthm as (_ & Hrecv & Hzero).
  split; [reflexivity|]. split; [reflexivity|]. split; [reflexivity|].
  exact (Hzero eq_refl eq_refl).
Defined.

(** Reads on a fresh handle, with the stream in two chunks. *)
Lemma read_buffer_invariant_witness :
  in_bounds (readBuffer (with_fd 3 (fresh 8))) ∧
  ((let '(out, sock', e, w') :=
      socket_read_text (with_fd 3 (fresh 8)) [LF] 50 0
        (boot (chunks [["P"; "I"]; ["N"; "G"; LF; "P"]]%byte)) in
    length (data (readBuffer sock')) = length (data (readBuffer (with_fd 3 (fresh 8)))) ∧
    in_bounds (readBuffer sock') ∧
    (e = 0%Z →
     holds_unreturned (readBuffer (with_fd 3 (fresh 8))) (readBuffer sock')
       (since (boot (chunks [["P"; "I"]; ["N"; "G"; LF; "P"]]%byte)) w') out)) ∧
   (let '(out, actualSize, sock', e, w') :=
      socket_read_binary (with_fd 3 (fresh 8)) 3 50 0
        (boot (chunks [["P"; "I"]; ["N"; "G"; LF; "P"]]%byte)) in
    length (data (readBuffer sock')) = length (data (readBuffer (with_fd 3 (fresh 8)))) ∧
    in_bounds (readBuffer sock') ∧
    (e = 0%Z →
     holds_unreturned (readBuffer (with_fd 3 (fresh 8))) (readBuffer sock')
       (since (boot (chunks [["P"; "I"]; ["N"; "G"; LF; "P"]]%byte)) w') out))).
Proof.
  assert (in_bounds (readBuffer (with_fd 3 (fresh 8)))) as Hin
    by (unfold in_bounds; simpl; lia).
  split; [exact Hin|].
  exact (read_buffer_invariant (with_fd 3 (fresh 8)) [LF] 3 50 0
           (boot (chunks [["P"; "I"]; ["N"; "G"; LF; "P"]]%byte)) Hin).
Defined.

(** A write of five bytes that takes two sends. *)
Lemma socket_write_outcome_witness :
  5 ≤ length ["H"; "E"; "L"; "L"; "O"]%byte ∧
  (let '(ok, e, w') :=
     socket_write (with_fd 3 (fresh 8)) ["H"; "E"; "L"; "L"; "O"]%byte 5 0
       (boot [returns 2; returns 3]) in
   let log := since (boot [returns 2; returns 3]) w' in
   sent log `prefix_of` take 5 ["H"; "E"; "L"; "L"; "O"]%byte ∧
   (∀ l1 x l2, log = l1 ++ x :: l2 →
      ∃ a, x = (sys_send (sockfd (with_fd 3 (fresh 8)))
                  (drop (length (sent l2)) (take 5 ["H"; "E"; "L"; "L"; "O"]%byte)), a) ∧
           ((ret a ≤ 0)%Z → ok = false ∧ l1 = [])) ∧
   (ok = true ↔ sent log = take 5 ["H"; "E"; "L"; "L"; "O"]%byte) ∧
   (ok = true → e = 0%Z) ∧
   (ok = false →
      e = errno w' ∧
      ∃ buf a log', log = (sys_send (sockfd (with_fd 3 (fresh 8))) buf, a) :: log'
                    ∧ (ret a ≤ 0)%Z)).
Proof.
  assert (5 ≤ length ["H"; "E"; "L"; "L"; "O"]%byte) as Hlen by (simpl; lia).
  split; [exact Hlen|].
  exact (socket_write_outcome (with_fd 3 (fresh 8)) ["H"; "E"; "L"; "L"; "O"]%byte 5 0
           (boot [returns 2; returns 3]) Hlen).
Defined.

(** ** The further properties at inputs that meet their assumptions *)

(** An explicit list of text bytes holds no NUL. *)
Ltac no_nul :=
  let Hin := fresh "Hin" in
  unfold pending; simpl; intros Hin;
  repeat (apply elem_of_cons in Hin as [Hin|Hin]; [discriminate Hin|]);
  by apply elem_of_nil in Hin.

(** Where a needle can occur in an explicit list: try each offset. *)
Ltac each_offset Hocc l1 :=
  destruct l1 as [|? l1]; simpl in Hocc;
  [ first [discriminate Hocc | by inversion Hocc]
  | first [discriminate Hocc | injection Hocc as _ Hocc; each_offset Hocc l1] ].

Ltac no_occurrence :=
  let l1 := fresh "l1" in
  let l2 := fresh "l2" in
  let Hocc := fresh "Hocc" in
  unfold absent, first_at, pending; simpl;
  intros l1 l2 Hocc; unfold LF, CR in Hocc; each_offset Hocc l1.

Ltac text_chunk :=
  split; [discriminate|]; split; [simpl; lia|no_nul].



(** The line ["A\n"] is served from the pending bytes ["A\nB"]. *)
Lemma socket_read_text_pending_line_witness :
  (in_bounds (readBuffer line_pending) ∧
   pending (readBuffer line_pending) = ["A"]%byte ++ [LF] ++ ["B"]%byte ∧
   (x00 ∉ pending (readBuffer line_pending)) ∧
   [LF] ≠ [] ∧
   first_at [LF] ["A"]%byte) ∧
  ∃ sock',
    socket_read_text line_pending [LF] 50 0 (boot [])
    = (Some (["A"]%byte ++ [LF]), sock', 0%Z, boot []) ∧
    sockfd sock' = sockfd line_pending ∧
    pending (readBuffer sock') = ["B"]%byte ∧
    length (data (readBuffer sock')) = length (data (readBuffer line_pending)).
Proof.
  assert (in_bounds (readBuffer line_pending)) as Hin
    by (unfold in_bounds; simpl; lia).
  assert (x00 ∉ pending (readBuffer line_pending)) as Hnul by no_nul.
  assert (first_at [LF] ["A"]%byte) as Hfirst by no_occurrence.
  split.
  - split; [exact Hin|]. split; [reflexivity|]. split; [exact Hnul|].
    split; [discriminate|exact Hfirst].
  - exact (socket_read_text_pending_line line_pending [LF] ["A"]%byte ["B"]%byte 50
             (boot []) Hin eq_refl Hnul ltac:(discriminate) Hfirst).
Defined.

(** A text read with the empty string as terminator. *)
Lemma socket_read_text_empty_terminator_witness :
  let sock := with_fd 3 (fresh 8) in
  let w := boot (chunks [["H"; "I"]%byte]) in
  (in_bounds (readBuffer sock) ∧ cstr [] = []) ∧
  (let '(out, sock', e, w') := socket_read_text sock [] 50 0 w in
   out = None ∧
   pending (readBuffer sock') = pending (readBuffer sock) ++ received (since w w') ∧
   (position (readBuffer sock) ≠ 0 → e = 0%Z ∧ w' = w)).
Proof.
  cbn zeta.
  assert (in_bounds (readBuffer (with_fd 3 (fresh 8)))) as Hin
    by (unfold in_bounds; simpl; lia).
  split; [split; [exact Hin|reflexivity]|].
  exact (socket_read_text_empty_terminator (with_fd 3 (fresh 8)) [] 50 0
           (boot (chunks [["H"; "I"]%byte])) Hin eq_refl).
Defined.

(** ["PI"] is pending and ["NG\n"] arrives. *)
Lemma socket_read_text_resumes_witness :
  let w := boot (chunks [["N"; "G"; LF]%byte]) in
  (in_bounds (readBuffer part_pending) ∧
   position (readBuffer part_pending) ≠ 0 ∧
   (x00 ∉ pending (readBuffer part_pending)) ∧
   absent [LF] (pending (readBuffer part_pending)) ∧
   [LF] ≠ [] ∧ (x00 ∉ [LF]) ∧
   Forall (λ b, fits (length (data (readBuffer part_pending))) b ∧ absent [LF] b) [] ∧
   fits (length (data (readBuffer part_pending))) (["N"; "G"]%byte ++ [LF] ++ []) ∧
   first_at [LF] ["N"; "G"]%byte ∧
   script w = chunks ([] ++ [["N"; "G"]%byte ++ [LF] ++ []]) ++ []) ∧
  ∃ sock' w',
    socket_read_text part_pending [LF] 50 7 w
    = (Some (pending (readBuffer part_pending) ++ concat [] ++ ["N"; "G"]%byte ++ [LF]),
       sock', 0%Z, w') ∧
    sockfd sock' = sockfd part_pending ∧
    pending (readBuffer sock') = [] ∧ script w' = [].
Proof.
  cbn zeta.
  assert (in_bounds (readBuffer part_pending)) as Hin
    by (unfold in_bounds; simpl; lia).
  assert (x00 ∉ pending (readBuffer part_pending)) as Hnul by no_nul.
  assert (absent [LF] (pending (readBuffer part_pending))) as Habs by no_occurrence.
  assert (x00 ∉ [LF]) as Hterm by no_nul.
  assert (fits (length (data (readBuffer part_pending)))
               (["N"; "G"]%byte ++ [LF] ++ [])) as Hlast by text_chunk.
  assert (first_at [LF] ["N"; "G"]%byte) as Hfirst by no_occurrence.
  split.
  - split; [exact Hin|]. split; [discriminate|]. split; [exact Hnul|].
    split; [exact Habs|]. split; [discriminate|]. split; [exact Hterm|].
    split; [constructor|]. split; [exact Hlast|]. split; [exact Hfirst|reflexivity].
  - exact (socket_read_text_resumes part_pending [LF] 50 7
             (boot (chunks [["N"; "G"; LF]%byte])) [] ["N"; "G"]%byte [] []
             Hin ltac:(discriminate) Hnul Habs ltac:(discriminate) Hterm
             (Forall_nil_2 _) Hlast Hfirst eq_refl).
Defined.

(** ["PI"] arrives and then the peer closes. *)
Lemma socket_read_text_fails_witness :
  let sock := with_fd 3 (fresh 8) in
  let w := boot (chunks [["P"; "I"]%byte] ++ hangup ++ []) in
  (position (readBuffer sock) = 0 ∧
   (x00 ∉ [LF]) ∧
   Forall (λ b, fits (length (data (readBuffer sock))) b ∧ absent [LF] b)
          [["P"; "I"]%byte] ∧
   (hangup = hangup ∧ PEER_CLOSED = PEER_CLOSED ∨
    hangup = silence ∧ PEER_CLOSED = ETIMEDOUT) ∧
   script w = chunks [["P"; "I"]%byte] ++ hangup ++ []) ∧
  ∃ sock' w',
    socket_read_text sock [LF] 50 0 w = (None, sock', PEER_CLOSED, w') ∧
    pending (readBuffer sock') = [] ∧ script w' = [].
Proof.
  cbn zeta.
  assert (x00 ∉ [LF]) as Hterm by no_nul.
  assert (Forall (λ b, fits (length (data (readBuffer (with_fd 3 (fresh 8))))) b
                       ∧ absent [LF] b) [["P"; "I"]%byte]) as Hcs.
  { constructor; [|constructor]. split; [text_chunk|no_occurrence]. }
  split.
  - split; [reflexivity|]. split; [exact Hterm|]. split; [exact Hcs|].
    split; [left; split; reflexivity|reflexivity].
  - exact (socket_read_text_fails (with_fd 3 (fresh 8)) [LF] 50 0
             (boot (chunks [["P"; "I"]%byte] ++ hangup ++ []))
             [["P"; "I"]%byte] hangup [] PEER_CLOSED
             eq_refl Hterm Hcs (or_introl (conj eq_refl eq_refl)) eq_refl).
Defined.

(** A frame of four bytes that arrives in two chunks. *)
Lemma socket_read_binary_chunks_witness :
  let sock := with_fd 3 (fresh 8) in
  let w := boot (chunks [["A"; "B"]; ["C"; "D"]]%byte ++ []) in
  (in_bounds (readBuffer sock) ∧
   0 < 4 ∧
   position (readBuffer sock) + length (concat [["A"; "B"]; ["C"; "D"]]%byte) = 4 ∧
   Forall (λ b, b ≠ [] ∧ length b ≤ length (data (readBuffer sock)))
          [["A"; "B"]; ["C"; "D"]]%byte ∧
   script w = chunks [["A"; "B"]; ["C"; "D"]]%byte ++ []) ∧
  ∃ sock' w',
    socket_read_binary sock 4 50 0 w
    = (Some (pending (readBuffer sock) ++ concat [["A"; "B"]; ["C"; "D"]]%byte),
       4, sock', 0%Z, w') ∧
    sockfd sock' = sockfd sock ∧
    position (readBuffer sock') = 0 ∧ script w' = [].
Proof.
  cbn zeta.
  assert (in_bounds (readBuffer (with_fd 3 (fresh 8)))) as Hin
    by (unfold in_bounds; simpl; lia).
  assert (0 < 4) as Hsize by lia.
  assert (Forall (λ b : list byte,
                    b ≠ [] ∧ length b ≤ length (data (readBuffer (with_fd 3 (fresh 8)))))
                 [["A"; "B"]; ["C"; "D"]]%byte) as Hcs.
  { repeat constructor; (discriminate || (simpl; lia)). }
  split.
  - split; [exact Hin|]. split; [exact Hsize|]. split; [reflexivity|].
    split; [exact Hcs|reflexivity].
  - exact (socket_read_binary_chunks (with_fd 3 (fresh 8)) 4 50 0
             (boot (chunks [["A"; "B"]; ["C"; "D"]]%byte ++ []))
             [["A"; "B"]; ["C"; "D"]]%byte [] Hin Hsize eq_refl Hcs eq_refl).
Defined.

(** A binary read of four bytes on a fresh handle. *)
Lemma socket_read_binary_frame_witness :
  let sock := with_fd 3 (fresh 8) in
  let w := boot (chunks [["A"; "B"]; ["C"; "D"; "E"]]%byte) in
  (in_bounds (readBuffer sock) ∧ position (readBuffer sock) ≤ 4) ∧
  (let '(out, actualSize, sock', e, w') := socket_read_binary sock 4 50 0 w in
   let stream := pending (readBuffer sock) ++ received (since w w') in
   position (readBuffer sock') = 0 ∧
   (e = 0%Z → default [] out = stream ∧ length stream = 4 ∧ actualSize = 4) ∧
   (e ≠ 0%Z → out = None ∧ actualSize = 0 ∧ length stream < 4)).
Proof.
  cbn zeta.
  assert (in_bounds (readBuffer (with_fd 3 (fresh 8)))) as Hin
    by (unfold in_bounds; simpl; lia).
  assert (position (readBuffer (with_fd 3 (fresh 8))) ≤ 4) as Hfit by (simpl; lia).
  split; [split; [exact Hin|exact Hfit]|].
  exact (socket_read_binary_frame (with_fd 3 (fresh 8)) 4 50 0
           (boot (chunks [["A"; "B"]; ["C"; "D"; "E"]]%byte)) Hin Hfit).
Defined.

(** Two of four bytes arrive and then the wait times out. *)
Lemma socket_read_binary_fails_witness :
  let sock := with_fd 3 (fresh 8) in
  let w := boot (chunks [["A"; "B"]%byte] ++ silence ++ []) in
  (in_bounds (readBuffer sock) ∧
   position (readBuffer sock) + length (concat [["A"; "B"]%byte]) < 4 ∧
   Forall (λ b, b ≠ [] ∧ length b ≤ length (data (readBuffer sock))) [["A"; "B"]%byte] ∧
   (silence = hangup ∧ ETIMEDOUT = PEER_CLOSED ∨
    silence = silence ∧ ETIMEDOUT = ETIMEDOUT) ∧
   script w = chunks [["A"; "B"]%byte] ++ silence ++ []) ∧
  ∃ sock' w',
    socket_read_binary sock 4 50 0 w = (None, 0, sock', ETIMEDOUT, w') ∧
    sockfd sock' = sockfd sock ∧
    position (readBuffer sock') = 0 ∧ script w' = [].
Proof.
  cbn zeta.
  assert (in_bounds (readBuffer (with_fd 3 (fresh 8)))) as Hin
    by (unfold in_bounds; simpl; lia).
  assert (position (readBuffer (with_fd 3 (fresh 8)))
          + length (concat [["A"; "B"]%byte]) < 4) as Hsum by (simpl; lia).
  assert (Forall (λ b : list byte,
                    b ≠ [] ∧ length b ≤ length (data (readBuffer (with_fd 3 (fresh 8)))))
                 [["A"; "B"]%byte]) as Hcs.
  { repeat constructor; (discriminate || (simpl; lia)). }
  split.
  - split; [exact Hin|]. split; [exact Hsum|]. split; [exact Hcs|].
    split; [right; split; reflexivity|reflexivity].
  - exact (socket_read_binary_fails (with_fd 3 (fresh 8)) 4 50 0
             (boot (chunks [["A"; "B"]%byte] ++ silence ++ []))
             [["A"; "B"]%byte] silence [] ETIMEDOUT
             Hin Hsum Hcs (or_intror (conj eq_refl eq_refl)) eq_refl).
Defined.

(** A connect in progress on descriptor 3 whose wait times out. *)
Lemma socket_connect_in_progress_witness :
  let w := boot [returns 3; returns 0; fails 115; returns 0; quiet] in
  (3%Z ≠ INVALID_SOCKET ∧
   (115%Z = EINPROGRESS ∨ 115%Z = EAGAIN) ∧
   script w = returns 3 :: returns 0 :: fails 115 :: returns 0 :: quiet :: []) ∧
  (let '(ok, sock', e, w') := socket_connect (fresh 8) localhost 50 0 w in
   (ret (returns 0) = 0%Z →
    ok = false ∧ e = ETIMEDOUT ∧ sockfd sock' = INVALID_SOCKET ∧
    closes (since w w') = 1) ∧
   (ret (returns 0) = 1%Z → ret quiet = 0%Z → optval quiet ≠ 0%Z →
    ok = false ∧ e = optval quiet ∧ sockfd sock' = INVALID_SOCKET ∧
    closes (since w w') = 1) ∧
   (ret (returns 0) = 1%Z → ret quiet = 0%Z → optval quiet = 0%Z →
    ok = true ∧ e = 0%Z ∧ sockfd sock' = 3%Z ∧ closes (since w w') = 0)).
Proof.
  cbn zeta.
  assert (3%Z ≠ INVALID_SOCKET) as Hfd by discriminate.
  split.
  - split; [exact Hfd|]. split; [left; reflexivity|reflexivity].
  - exact (socket_connect_in_progress (fresh 8) localhost 50 0
             (boot [returns 3; returns 0; fails 115; returns 0; quiet])
             3 115 (returns 0) quiet [] Hfd (or_introl eq_refl) eq_refl).
Defined.

(** The header ["H\n"] and the first byte of the frame ["AB"] arrive
    together. *)
Lemma read_text_then_binary_witness :
  let sock := with_fd 3 (fresh 8) in
  let w := boot (chunks ([] ++ [["H"]%byte ++ [LF] ++ ["A"]%byte])
                 ++ chunks [["B"]%byte] ++ []) in
  (position (readBuffer sock) = 0 ∧
   [LF] ≠ [] ∧ (x00 ∉ [LF]) ∧
   Forall (λ b, fits (length (data (readBuffer sock))) b ∧ absent [LF] b) [] ∧
   fits (length (data (readBuffer sock))) (["H"]%byte ++ [LF] ++ ["A"]%byte) ∧
   first_at [LF] ["H"]%byte ∧
   Forall (λ b, b ≠ [] ∧ length b ≤ length (data (readBuffer sock))) [["B"]%byte] ∧
   0 < 2 ∧
   length ["A"]%byte + length (concat [["B"]%byte]) = 2 ∧
   script w = chunks ([] ++ [["H"]%byte ++ [LF] ++ ["A"]%byte])
              ++ chunks [["B"]%byte] ++ []) ∧
  (let '(line, sock1, e1, w1) := socket_read_text sock [LF] 50 0 w in
   let '(frame, actualSize, sock2, e2, w2) := socket_read_binary sock1 2 50 e1 w1 in
   line = Some (concat [] ++ ["H"]%byte ++ [LF]) ∧ e1 = 0%Z ∧
   frame = Some (["A"]%byte ++ concat [["B"]%byte]) ∧ actualSize = 2 ∧ e2 = 0%Z ∧
   position (readBuffer sock2) = 0 ∧ script w2 = []).
Proof.
  cbn zeta.
  assert (x00 ∉ [LF]) as Hterm by no_nul.
  assert (fits (length (data (readBuffer (with_fd 3 (fresh 8)))))
               (["H"]%byte ++ [LF] ++ ["A"]%byte)) as Hlast by text_chunk.
  assert (first_at [LF] ["H"]%byte) as Hfirst by no_occurrence.
  assert (Forall (λ b : list byte,
                    b ≠ [] ∧ length b ≤ length (data (readBuffer (with_fd 3 (fresh 8)))))
                 [["B"]%byte]) as Hbs.
  { repeat constructor; (discriminate || (simpl; lia)). }
  assert (0 < 2) as Hsize by lia.
  split.
  - split; [reflexivity|]. split; [discriminate|]. split; [exact Hterm|].
    split; [constructor|]. split; [exact Hlast|]. split; [exact Hfirst|].
    split; [exact Hbs|]. split; [exact Hsize|]. split; reflexivity.
  - exact (read_text_then_binary (with_fd 3 (fresh 8)) [LF] 2 50 50 0
             (boot (chunks ([] ++ [["H"]%byte ++ [LF] ++ ["A"]%byte])
                    ++ chunks [["B"]%byte] ++ []))
             [] [["B"]%byte] ["H"]%byte ["A"]%byte []
             eq_refl ltac:(discriminate) Hterm (Forall_nil_2 _) Hlast Hfirst Hbs Hsize
             eq_refl eq_refl).
Defined.

(** The lines ["A\n"] and ["B\n"] arrive in one chunk. *)
Lemma read_text_twice_witness :
  let sock := with_fd 3 (fresh 8) in
  let w := boot (chunks ([] ++ [["A"]%byte ++ [LF] ++ ["B"]%byte ++ [LF] ++ []]) ++ []) in
  (position (readBuffer sock) = 0 ∧
   [LF] ≠ [] ∧ (x00 ∉ [LF]) ∧
   Forall (λ b, fits (length (data (readBuffer sock))) b ∧ absent [LF] b) [] ∧
   fits (length (data (readBuffer sock)))
        (["A"]%byte ++ [LF] ++ ["B"]%byte ++ [LF] ++ []) ∧
   first_at [LF] ["A"]%byte ∧ first_at [LF] ["B"]%byte ∧
   script w = chunks ([] ++ [["A"]%byte ++ [LF] ++ ["B"]%byte ++ [LF] ++ []]) ++ []) ∧
  (let '(line1, sock1, e1, w1) := socket_read_text sock [LF] 50 0 w in
   let '(line2, sock2, e2, w2) := socket_read_text sock1 [LF] 50 e1 w1 in
   line1 = Some (concat [] ++ ["A"]%byte ++ [LF]) ∧ e1 = 0%Z ∧
   line2 = Some (["B"]%byte ++ [LF]) ∧ e2 = 0%Z ∧
   w2 = w1 ∧ script w1 = [] ∧ pending (readBuffer sock2) = []).
Proof.
  cbn zeta.
  assert (x00 ∉ [LF]) as Hterm by no_nul.
  assert (fits (length (data (readBuffer (with_fd 3 (fresh 8)))))
               (["A"]%byte ++ [LF] ++ ["B"]%byte ++ [LF] ++ [])) as Hlast by text_chunk.
  assert (first_at [LF] ["A"]%byte) as Hfirst1 by no_occurrence.
  assert (first_at [LF] ["B"]%byte) as Hfirst2 by no_occurrence.
  split.
  - split; [reflexivity|]. split; [discriminate|]. split; [exact Hterm|].
    split; [constructor|]. split; [exact Hlast|]. split; [exact Hfirst1|].
    split; [exact Hfirst2|reflexivity].
  - exact (read_text_twice (with_fd 3 (fresh 8)) [LF] 50 50 0
             (boot (chunks ([] ++ [["A"]%byte ++ [LF] ++ ["B"]%byte ++ [LF] ++ []]) ++ []))
             [] ["A"]%byte ["B"]%byte [] []
             eq_refl ltac:(discriminate) Hterm (Forall_nil_2 _) Hlast Hfirst1 Hfirst2
             eq_refl).
Defined.

(** The calls of a text read and of a binary read on a fresh handle. *)
Lemma reads_stay_in_buffer_witness :
  let sock := with_fd 3 (fresh 8) in
  let w := boot (chunks [["P"; "I"]; ["N"; "G"; LF]]%byte) in
  in_bounds (readBuffer sock) ∧
  ((let '(out, sock', e, w') := socket_read_text sock [LF] 50 0 w in
    forallb (read_call (sockfd sock) 50 (length (data (readBuffer sock)))) (since w w')
    = true) ∧
   (let '(out, actualSize, sock', e, w') := socket_read_binary sock 4 50 0 w in
    forallb (read_call (sockfd sock) 50 (length (data (readBuffer sock)))) (since w w')
    = true)).
Proof.
  cbn zeta.
  assert (in_bounds (readBuffer (with_fd 3 (fresh 8)))) as Hin
    by (unfold in_bounds; simpl; lia).
  split; [exact Hin|].
  exact (reads_stay_in_buffer (with_fd 3 (fresh 8)) [LF] 4 50 0
           (boot (chunks [["P"; "I"]; ["N"; "G"; LF]]%byte)) Hin).
Defined.

(** A connect that is refused at once (error 111). *)
Lemma socket_connect_error_code_witness :
  let w := boot [returns 3; returns 0; fails 111] in
  let '(ok, sock', e, w') := socket_connect (fresh 8) localhost 50 0 w in
  forallb posix (since w w') = true ∧
  match since w w' with
  | (sys_close fd, _) :: x :: _ => e = reported x ∧ e ≠ 0%Z ∧ fd ≠ INVALID_SOCKET
  | x :: _ => e = reported x ∧ (e = 0%Z ∨ x.1 = sys_socket)
  | [] => False
  end.
Proof.
  pose proof (socket_connect_error_code (fresh 8) localhost 50 0
                (boot [returns 3; returns 0; fails 111])) as Hthm.
  vm_compute in Hthm. vm_compute.
  split; [reflexivity|exact (Hthm eq_refl)].
Defined.
